(** * The checks model of the Gerrit web UI (checks-model.ts)

    A shallow embedding of the state store of [ChecksModel], of the
    selectors derived from it, and of the synchronous parts of
    [triggerAction] and [register], with the properties the
    specification states about them.

    Conventions of the embedding.
    - JavaScript numbers that the model handles are change numbers,
      patchset numbers and attempt numbers: they are embedded as [Z].
    - An optional property, or a value that may be [undefined], is an
      [option]; a property that is present with the value [undefined]
      and a property that is absent both read as [undefined] and are
      both embedded as [None].
    - The store works on immutable snapshots: every writer copies an
      object before it changes it, and no object is written once it has
      been published.  An object on the path snapshot / context map /
      provider entry / runs array / run / results array / result is
      therefore embedded as its content together with the address it
      received when it was allocated ([Obj]); [===] on two such objects
      compares the addresses.
    - The dictionaries keyed by plugin name are embedded as [gmap]; the
      plugin names are supposed not to collide with the properties
      inherited from [Object.prototype]. *)

From stdpp Require Import base option list gmap strings pretty sorting.

Open Scope Z_scope.

(** ** Objects with identity *)

Definition loc := nat.

Record Obj (A : Type) := mkObj { addr : loc; val : A }.
Arguments mkObj {A} _ _.
Arguments addr {A} _.
Arguments val {A} _.

(** An array object: its identity and its elements. *)
Abbreviation Arr A := (Obj (list A)).

(** [a === b] on objects. *)
Definition sameRef {A B : Type} (a : Obj A) (b : Obj B) : Prop := addr a = addr b.

(** ** Truthiness, as the conditions of the source test it *)

Definition truthyNum (n : option Z) : bool :=
  match n with
  | Some z => negb (Z.eqb z 0)
  | None => false
  end.

Definition truthyStr (s : option string) : bool :=
  match s with
  | Some s => negb (String.eqb s "")
  | None => false
  end.

(** ** The checks API (api/checks.ts), as far as the model reads it *)

Inductive ChecksPatchset := LATEST | SELECTED.

#[export] Instance ChecksPatchset_eq_dec : EqDecision ChecksPatchset.
Proof. solve_decision. Defined.

Inductive RunStatus := RUNNABLE | SCHEDULED | RUNNING | COMPLETED.

Inductive Category := SUCCESS | INFO | WARNING | ERROR.

Record Link := mkLink {
  link_url : string;
  link_primary : bool
}.

Record CallbackArgs := mkCallbackArgs {
  arg_change : Z;
  arg_patchset : Z;
  arg_attempt : option Z;
  arg_externalId : option string;
  arg_checkName : option string;
  arg_actionName : string
}.

(** What [triggerAction] can observe of the value an action callback
    returns: [undefined], a value without a [then] property, or a
    promise (identified by a number). *)
Inductive CallbackReturn :=
  | RetUndefined
  | RetNotThenable
  | RetPromise (p : nat).

Definition ActionCallback := CallbackArgs → CallbackReturn.

Record Action := mkAction {
  action_name : string;
  action_tooltip : option string;
  action_callback : option ActionCallback
}.

Record CheckResultApi := mkCheckResultApi {
  api_externalId : option string;
  api_category : Category;
  api_summary : string;
  api_message : option string;
  api_links : list Link
}.

Record CheckRunApi := mkCheckRunApi {
  api_change : Z;
  api_patchset : Z;
  api_attempt : option Z;
  api_run_externalId : option string;
  api_checkName : string;
  api_checkDescription : option string;
  api_status : RunStatus;
  api_statusDescription : option string;
  api_actions : list Action;
  api_results : option (list CheckResultApi)
}.

(** ** The attempt details (checks-util.ts) *)

Record ChecksIcon := mkChecksIcon {
  icon_name : string;
  icon_filled : bool
}.

Record AttemptDetail := mkAttemptDetail {
  attempt : option Z;
  icon : ChecksIcon
}.

Record AttemptInfo := mkAttemptInfo {
  latestAttempt : option Z;
  isSingleAttempt : bool;
  attempts : list AttemptDetail
}.

(** ** The state of the model *)

(** [CheckResult extends CheckResultApi]. *)
Record CheckResultF := mkCheckResultF {
  result_api : CheckResultApi;
  internalResultId : string
}.
Abbreviation CheckResult := (Obj CheckResultF).

(** [CheckRun extends CheckRunApi]; [results] is overridden. *)
Record CheckRunF := mkCheckRunF {
  run_api : CheckRunApi;
  run_pluginName : string;
  internalRunId : string;
  isLatestAttempt : bool;
  run_isSingleAttempt : bool;
  attemptDetails : list AttemptDetail;
  results : option (Arr CheckResult)
}.
Abbreviation CheckRun := (Obj CheckRunF).

Definition run_change (r : CheckRun) : Z := api_change (run_api (val r)).
Definition run_patchset (r : CheckRun) : Z := api_patchset (run_api (val r)).
Definition run_attempt (r : CheckRun) : option Z := api_attempt (run_api (val r)).
Definition run_checkName (r : CheckRun) : string := api_checkName (run_api (val r)).
Definition run_externalId (r : CheckRun) : option string :=
  api_run_externalId (run_api (val r)).
Definition result_externalId (r : CheckResult) : option string :=
  api_externalId (result_api (val r)).

(** A login callback is a function object; the model only stores it. *)
Record LoginCallback := mkLoginCallback { login_id : nat }.

(** [ChecksProviderState].  The interface declares every property but
    the two markers as required; an entry that was built by spreading
    [undefined] lacks them all the same, so every property is optional
    here. *)
Record ChecksProviderStateF := mkProviderState {
  pluginName : option string;
  loading : option bool;
  firstTimeLoad : option bool;
  errorMessage : option string;
  loginCallback : option LoginCallback;
  runs : option (Arr CheckRun);
  actions : option (list Action);
  links : option (list Link)
}.
Abbreviation ChecksProviderState := (Obj ChecksProviderStateF).

(** The object [{[name: string]: ChecksProviderState}] of one context. *)
Abbreviation PluginState := (Obj (gmap string ChecksProviderState)).

Record ChecksStateF := mkChecksState {
  patchsetNumberSelected : option Z;
  pluginStateLatest : PluginState;
  pluginStateSelected : PluginState
}.
Abbreviation ChecksState := (Obj ChecksStateF).

(** [BehaviorSubject]: the current value and, oldest first, the values
    that were passed to [next]. *)
Record BehaviorSubject (A : Type) := mkSubject {
  subject_value : A;
  subject_emitted : list A
}.
Arguments mkSubject {A} _ _.
Arguments subject_value {A} _.
Arguments subject_emitted {A} _.

(** A provider is an object with a [fetch] method; the model stores it
    and, at registration, only tests that it is there. *)
Record ChecksProvider := mkProvider { provider_id : nat }.

Record ChecksApiConfig := mkConfig {
  fetchPollingIntervalSeconds : option Z
}.

(** The pipeline [initFetchingOfData] subscribes: the plugin and the
    context it fetches for, and the polling interval of its timer. *)
Record FetchPipeline := mkPipeline {
  pipe_plugin : string;
  pipe_patchset : ChecksPatchset;
  pipe_pollIntervalMs : Z
}.

(** What the model does to its environment. *)
Inductive Effect :=
  | ConsoleWarn (msg : string)
  | CallbackInvoked (args : CallbackArgs)
  | FireAlert (msg : string)
  | ActionResultAwaited (promise : nat) (checkName : option string).

(** The instance of [ChecksModel], with the two parts of its environment
    that its methods act on: the allocator ([heapTop] is the first
    address not yet in use) and the effects performed so far. *)
Record ChecksModel := mkModel {
  providers : gmap string ChecksProvider;
  reloadSubjects : gmap string (BehaviorSubject unit);
  changeNum : option Z;
  latestPatchNum : option Z;
  subscriptions : list FetchPipeline;
  privateState : BehaviorSubject ChecksState;
  heapTop : loc;
  effects : list Effect
}.

Definition set_providers (f : gmap string ChecksProvider → gmap string ChecksProvider)
    (m : ChecksModel) : ChecksModel :=
  mkModel (f (providers m)) (reloadSubjects m) (changeNum m) (latestPatchNum m)
    (subscriptions m) (privateState m) (heapTop m) (effects m).

Definition set_reloadSubjects
    (f : gmap string (BehaviorSubject unit) → gmap string (BehaviorSubject unit))
    (m : ChecksModel) : ChecksModel :=
  mkModel (providers m) (f (reloadSubjects m)) (changeNum m) (latestPatchNum m)
    (subscriptions m) (privateState m) (heapTop m) (effects m).

Definition set_changeNum (x : option Z) (m : ChecksModel) : ChecksModel :=
  mkModel (providers m) (reloadSubjects m) x (latestPatchNum m)
    (subscriptions m) (privateState m) (heapTop m) (effects m).

Definition set_latestPatchNum (x : option Z) (m : ChecksModel) : ChecksModel :=
  mkModel (providers m) (reloadSubjects m) (changeNum m) x
    (subscriptions m) (privateState m) (heapTop m) (effects m).

Definition set_subscriptions (f : list FetchPipeline → list FetchPipeline)
    (m : ChecksModel) : ChecksModel :=
  mkModel (providers m) (reloadSubjects m) (changeNum m) (latestPatchNum m)
    (f (subscriptions m)) (privateState m) (heapTop m) (effects m).

Definition set_privateState (f : BehaviorSubject ChecksState → BehaviorSubject ChecksState)
    (m : ChecksModel) : ChecksModel :=
  mkModel (providers m) (reloadSubjects m) (changeNum m) (latestPatchNum m)
    (subscriptions m) (f (privateState m)) (heapTop m) (effects m).

Definition set_heapTop (f : loc → loc) (m : ChecksModel) : ChecksModel :=
  mkModel (providers m) (reloadSubjects m) (changeNum m) (latestPatchNum m)
    (subscriptions m) (privateState m) (f (heapTop m)) (effects m).

Definition set_effects (f : list Effect → list Effect) (m : ChecksModel) : ChecksModel :=
  mkModel (providers m) (reloadSubjects m) (changeNum m) (latestPatchNum m)
    (subscriptions m) (privateState m) (heapTop m) (f (effects m)).

(** ** Methods as state transformers that may throw *)

Inductive JsError :=
  | TypeError (msg : string)
  | AssertError (msg : string).

Inductive Completion (A : Type) :=
  | Normal (a : A)
  | Throw (e : JsError).
Arguments Normal {A} _.
Arguments Throw {A} _.

Definition M (A : Type) : Type := ChecksModel → Completion A * ChecksModel.

#[export] Instance M_ret : MRet M := λ A a m, (Normal a, m).

#[export] Instance M_bind : MBind M := λ A B f c m,
  match c m with
  | (Normal a, m') => f a m'
  | (Throw e, m') => (Throw e, m')
  end.

Definition throw {A : Type} (e : JsError) : M A := λ m, (Throw e, m).

Definition gets {A : Type} (f : ChecksModel → A) : M A := λ m, (Normal (f m), m).

Definition modify (f : ChecksModel → ChecksModel) : M unit := λ m, (Normal tt, f m).

(** An object literal, an array literal or the result of [map]: a new
    object at the first free address. *)
Definition new {A : Type} (v : A) : M (Obj A) := λ m,
  (Normal (mkObj (heapTop m) v), set_heapTop S m).

Definition perform (e : Effect) : M unit := modify (set_effects (λ es, es ++ [e])).

(** [this.privateState$.getValue()] and [this.privateState$.next(s)]. *)
Definition getValue : M ChecksState := gets (λ m, subject_value (privateState m)).

Definition next (s : ChecksState) : M unit :=
  modify (set_privateState (λ b, mkSubject s (subject_emitted b ++ [s]))).

(** The model and what happened to it, whether the method returned or
    threw. *)
Definition exec {A : Type} (c : M A) (m : ChecksModel) : ChecksModel := (c m).2.

Definition returns {A : Type} (c : M A) (m : ChecksModel) : Prop :=
  ∃ a, (c m).1 = Normal a.

Definition throws {A : Type} (c : M A) (m : ChecksModel) : Prop :=
  ∃ e, (c m).1 = Throw e.

(** The state of a model that has just been constructed. *)
Definition initialState : ChecksState :=
  mkObj 0%nat (mkChecksState None (mkObj 1%nat ∅) (mkObj 2%nat ∅)).

Definition initialModel : ChecksModel :=
  mkModel ∅ ∅ None None [] (mkSubject initialState []) 3%nat [].

(** ** Helpers of the embedding *)

(** [Array.prototype.map]: the callback is applied to the elements in
    order, with their index. *)
Fixpoint mapM {A B : Type} (f : nat → A → M B) (i : nat) (l : list A) : M (list B) :=
  match l with
  | [] => mret []
  | x :: l' =>
      y ← f i x;
      ys ← mapM f (S i) l';
      mret (y :: ys)
  end.

(** Reading a property of [o], which throws a [TypeError] when [o] is
    [undefined]. *)
Definition readOf {A : Type} (o : option A) (prop : string) : M A :=
  match o with
  | Some a => mret a
  | None =>
      throw (TypeError ("Cannot read properties of undefined (reading '" +:+ prop +:+ "')"))
  end.

(** [assertIsDefined] (utils/common-util.ts, not among the sources): as
    its name says, it throws unless the value is defined. *)
Definition assertIsDefined {A : Type} (v : option A) (variableName : string) : M A :=
  match v with
  | Some a => mret a
  | None => throw (AssertError (variableName +:+ " is not defined"))
  end.

Definition liftCompletion {A : Type} (c : Completion A) : M A := λ m, (c, m).

(** A number inside a template literal. *)
Definition showNum (n : option Z) : string := from_option pretty "undefined" n.

(** The value of [n] when [n] is truthy. *)
Definition whenTruthy (n : option Z) : option Z :=
  match n with
  | Some z => if bool_decide (z = 0) then None else Some z
  | None => None
  end.

(** ** The state store *)

Definition emptyProviderState : ChecksProviderStateF :=
  mkProviderState None None None None None None None None.

(** [{...entry}], where [entry] may be [undefined]. *)
Definition spread (entry : option ChecksProviderState) : ChecksProviderStateF :=
  from_option val emptyProviderState entry.

Definition pluginStateOf (patchset : ChecksPatchset) (state : ChecksState) : PluginState :=
  match patchset with
  | LATEST => pluginStateLatest (val state)
  | SELECTED => pluginStateSelected (val state)
  end.

(** [state.pluginStateLatest = ps] or [state.pluginStateSelected = ps]:
    a write to the object [state], which keeps its address. *)
Definition set_pluginStateOf (patchset : ChecksPatchset) (ps : PluginState)
    (state : ChecksState) : ChecksState :=
  mkObj (addr state)
    match patchset with
    | LATEST => mkChecksState (patchsetNumberSelected (val state)) ps (pluginStateSelected (val state))
    | SELECTED => mkChecksState (patchsetNumberSelected (val state)) (pluginStateLatest (val state)) ps
    end.

(** [getPluginState] replaces the context map of [state] by a copy and
    returns the copy; the embedding returns the written [state] too. *)
Definition getPluginState (state : ChecksState) (patchset : ChecksPatchset)
    : M (ChecksState * PluginState) :=
  copy ← new (val (pluginStateOf patchset state));
  mret (set_pluginStateOf patchset copy state, copy).

(** [pluginState[pluginName] = entry], where [pluginState] is the copy
    that [getPluginState] stored in [nextState]: the write is seen
    through [nextState]. *)
Definition assign (pluginName : string) (entry : ChecksProviderState)
    (patchset : ChecksPatchset) (pluginState : PluginState) (nextState : ChecksState)
    : ChecksState :=
  set_pluginStateOf patchset
    (mkObj (addr pluginState) (<[pluginName := entry]> (val pluginState))) nextState.

Definition updateStateSetProvider (name : string) (patchset : ChecksPatchset) : M unit :=
  cur ← getValue;
  nextState ← new (val cur);
  '(nextState, pluginState) ← getPluginState nextState patchset;
  noRuns ← new [];
  entry ← new (mkProviderState (Some name) (Some false) (Some true) None None
                 (Some noRuns) (Some []) (Some []));
  next (assign name entry patchset pluginState nextState).

Definition updateStateSetLoading (name : string) (patchset : ChecksPatchset) : M unit :=
  cur ← getValue;
  nextState ← new (val cur);
  '(nextState, pluginState) ← getPluginState nextState patchset;
  let old := spread (val pluginState !! name) in
  entry ← new (mkProviderState (pluginName old) (Some true) (firstTimeLoad old)
                 (errorMessage old) (loginCallback old) (runs old) (actions old) (links old));
  next (assign name entry patchset pluginState nextState).

Definition updateStateSetError (name : string) (message : string)
    (patchset : ChecksPatchset) : M unit :=
  cur ← getValue;
  nextState ← new (val cur);
  '(nextState, pluginState) ← getPluginState nextState patchset;
  let old := spread (val pluginState !! name) in
  noRuns ← new [];
  entry ← new (mkProviderState (pluginName old) (Some false) (Some false)
                 (Some message) None (Some noRuns) (Some []) (links old));
  next (assign name entry patchset pluginState nextState).

Definition updateStateSetNotLoggedIn (name : string) (callback : LoginCallback)
    (patchset : ChecksPatchset) : M unit :=
  cur ← getValue;
  nextState ← new (val cur);
  '(nextState, pluginState) ← getPluginState nextState patchset;
  let old := spread (val pluginState !! name) in
  noRuns ← new [];
  entry ← new (mkProviderState (pluginName old) (Some false) (Some false)
                 None (Some callback) (Some noRuns) (Some []) (links old));
  next (assign name entry patchset pluginState nextState).

(** The comparator [(a, b) => (a.attempt ?? -1) - (b.attempt ?? -1)] and
    the stable sort by it. *)
Definition attemptKey (a : AttemptDetail) : Z := default (-1) (attempt a).

Fixpoint insertAttempt (a : AttemptDetail) (l : list AttemptDetail) : list AttemptDetail :=
  match l with
  | [] => [a]
  | b :: l' =>
      if bool_decide (attemptKey a ≤ attemptKey b) then a :: b :: l'
      else b :: insertAttempt a l'
  end.

Definition sortAttempts (l : list AttemptDetail) : list AttemptDetail :=
  foldr insertAttempt [] l.

Definition sortInfo (info : AttemptInfo) : AttemptInfo :=
  mkAttemptInfo (latestAttempt info) (isSingleAttempt info) (sortAttempts (attempts info)).

Definition runIdOf (run : CheckRunApi) : string :=
  api_checkName run +:+ "-" +:+ pretty (api_change run) +:+ "-" +:+
  pretty (api_patchset run) +:+ "-" +:+ showNum (api_attempt run).

(** [run.results ?? []]. *)
Definition resultsOf (run : CheckRun) : list CheckResult :=
  from_option val [] (results (val run)).

(** [{...run, results}]. *)
Definition withResults (newResults : Arr CheckResult) (run : CheckRunF) : CheckRunF :=
  mkCheckRunF (run_api run) (run_pluginName run) (internalRunId run) (isLatestAttempt run)
    (run_isSingleAttempt run) (attemptDetails run) (Some newResults).

(** [{...entry, runs}]. *)
Definition withRuns (newRuns : Arr CheckRun) (entry : ChecksProviderStateF)
    : ChecksProviderStateF :=
  mkProviderState (pluginName entry) (loading entry) (firstTimeLoad entry)
    (errorMessage entry) (loginCallback entry) (Some newRuns) (actions entry) (links entry).

(** [result.externalId && result.externalId === updatedResult.externalId]:
    the external id of the result is truthy and is the one of the update. *)
Definition resultMatches (updatedResult : CheckResultApi) (result : CheckResult) : bool :=
  truthyStr (result_externalId result)
  && bool_decide (result_externalId result = api_externalId updatedResult).

Definition updateResultCallback (updatedResult : CheckResultApi) (result : CheckResult)
    : M (CheckResult * bool) :=
  if resultMatches updatedResult result
  then
    r ← new (mkCheckResultF updatedResult (internalResultId (val result)));
    mret (r, true)
  else mret (result, false).

(** The callback of [runs.map] in [updateStateUpdateResult]; the second
    component tells whether the callback set [runUpdated]. *)
Definition updateRunCallback (updatedRun : CheckRunApi) (updatedResult : CheckResultApi)
    (run : CheckRun) : M (CheckRun * bool) :=
  if negb (bool_decide (run_change run = api_change updatedRun)) then mret (run, false) else
  if negb (bool_decide (run_patchset run = api_patchset updatedRun)) then mret (run, false) else
  if negb (bool_decide (run_attempt run = api_attempt updatedRun)) then mret (run, false) else
  if negb (bool_decide (run_checkName run = api_checkName updatedRun)) then mret (run, false) else
  updated ← mapM (λ _, updateResultCallback updatedResult) 0 (resultsOf run);
  newResults ← new (updated.*1);
  let resultUpdated := existsb snd updated in
  if resultUpdated then
    r ← new (withResults newResults (val run));
    mret (r, true)
  else mret (run, false).

Definition updateStateUpdateResult (name : string) (updatedRun : CheckRunApi)
    (updatedResult : CheckResultApi) (patchset : ChecksPatchset) : M unit :=
  cur ← getValue;
  nextState ← new (val cur);
  '(nextState, pluginState) ← getPluginState nextState patchset;
  entry ← readOf (val pluginState !! name) "runs";
  oldRuns ← readOf (runs (val entry)) "map";
  updated ← mapM (λ _, updateRunCallback updatedRun updatedResult) 0 (val oldRuns);
  newRuns ← new (updated.*1);
  let runUpdated := existsb snd updated in
  if negb runUpdated then mret tt else
  entry' ← new (withRuns newRuns (val entry));
  next (assign name entry' patchset pluginState nextState).

Definition updateStateSetPatchset (patchsetNumber : option Z) : M unit :=
  cur ← getValue;
  nextState ← new (val cur);
  next (mkObj (addr nextState)
          (mkChecksState patchsetNumber (pluginStateLatest (val nextState))
             (pluginStateSelected (val nextState)))).

Definition setPatchset (num : option Z) : M unit :=
  latest ← gets latestPatchNum;
  updateStateSetPatchset (if bool_decide (num = latest) then None else num).

Definition updateResult (name : string) (run : CheckRunApi) (result : CheckResultApi)
    : M unit :=
  updateStateUpdateResult name run result LATEST;;
  updateStateUpdateResult name run result SELECTED.

(** ** Selectors *)

Definition checksSelectedPatchsetNumber (state : ChecksState) : option Z :=
  patchsetNumberSelected (val state).


Definition checksSelected (state : ChecksState) : PluginState :=
  if truthyNum (patchsetNumberSelected (val state))
  then pluginStateSelected (val state)
  else pluginStateLatest (val state).

(** ** Actions and registration *)

(** [run?.patchset ?? this.latestPatchNum]; [patchset] is a required
    property of a run. *)
Definition patchSetFor (run : option CheckRun) (latest : option Z) : option Z :=
  match run with
  | Some r => Some (run_patchset r)
  | None => latest
  end.

(** [triggerAction] up to the subscription to the promise that the
    callback returned. *)
Definition triggerAction (action : option Action) (run : option CheckRun) : M unit :=
  match action ≫= (λ a, pair a <$> action_callback a) with
  | None => mret tt
  | Some (action, callback) =>
      change ← gets changeNum;
      match whenTruthy change with
      | None => mret tt
      | Some change =>
          latest ← gets latestPatchNum;
          match whenTruthy (patchSetFor run latest) with
          | None => mret tt
          | Some patchSet =>
              let args :=
                mkCallbackArgs change patchSet (run ≫= run_attempt) (run ≫= run_externalId)
                  (run_checkName <$> run) (action_name action) in
              perform (CallbackInvoked args);;
              match callback args with
              | RetPromise p =>
                  perform (FireAlert ("Triggering action '" +:+ action_name action +:+ "' ..."));;
                  perform (ActionResultAwaited p (run_checkName <$> run))
              | _ => mret tt
              end
          end
      end
  end.

Definition initFetchingOfData (name : string) (config : option ChecksApiConfig)
    (patchset : ChecksPatchset) : M unit :=
  let pollIntervalMs := default 60 (config ≫= fetchPollingIntervalSeconds) * 1000 in
  modify (set_subscriptions (λ subs, subs ++ [mkPipeline name patchset pollIntervalMs])).

Definition register (name : string) (provider : ChecksProvider)
    (config : option ChecksApiConfig) : M unit :=
  registered ← gets providers;
  match registered !! name with
  | Some _ =>
      perform (ConsoleWarn ("Plugin '" +:+ name +:+
        "' was trying to register twice as a Checks UI provider. Ignored."))
  | None =>
      modify (set_providers <[name := provider]>);;
      modify (set_reloadSubjects <[name := mkSubject tt []]>);;
      updateStateSetProvider name LATEST;;
      updateStateSetProvider name SELECTED;;
      initFetchingOfData name config LATEST;;
      initFetchingOfData name config SELECTED
  end.

(** ** The attempt aggregator *)

Definition maxAttempt (a b : option Z) : option Z :=
  match a, b with
  | Some x, Some y => Some (Z.max x y)
  | Some x, None => Some x
  | None, _ => b
  end.

(** The runs of one check name. *)
Definition attemptGroup (runs : list CheckRunApi) (checkName : string) : list CheckRunApi :=
  filter (λ run, api_checkName run = checkName) runs.

Definition attemptInfoOf (iconOf : CheckRunApi → ChecksIcon) (group : list CheckRunApi)
    : AttemptInfo :=
  mkAttemptInfo
    (foldr maxAttempt None (api_attempt <$> group))
    (bool_decide (length group = 1%nat))
    (sortAttempts ((λ run, mkAttemptDetail (api_attempt run) (iconOf run)) <$> group)).

(** Modelled from the spec: [createAttemptMap] of checks-util.ts, which is
    not among the sources.  The runs are grouped by check name; the
    attempts of a group are sorted by attempt number, an absent number
    first; [latestAttempt] is the greatest attempt number of the group,
    [undefined] when no run of the group has one; [isSingleAttempt]
    holds when the group has one run.  There is no error, and no entry
    for a check name without runs.  How a run gets its icon is not
    specified: [iconOf] stands for it. *)
Definition aggregate (iconOf : CheckRunApi → ChecksIcon) (runs : list CheckRunApi)
    : gmap string AttemptInfo :=
  list_to_map
    ((λ run, (api_checkName run, attemptInfoOf iconOf (attemptGroup runs (api_checkName run))))
       <$> runs).

(** The entry that [updateStateSetResults] publishes. *)
Definition resultsEntry (old : ChecksProviderStateF) (runsArr : Arr CheckRun)
    (newActions : list Action) (newLinks : list Link) : ChecksProviderStateF :=
  mkProviderState (pluginName old) (Some false) (Some false) None None
    (Some runsArr) (Some newActions) (Some newLinks).

Section StoreWithAttemptMap.

(** [createAttemptMap] is imported from checks-util.ts, which is not
    among the sources.  [updateStateSetResults] is embedded for any
    function in its place, one that may throw too; [aggregate] above is
    the one the specification describes. *)
Variable createAttemptMap : list CheckRunApi → Completion (gmap string AttemptInfo).

(** The callback of [runs.map] in [updateStateSetResults]. *)
Definition setResultsCallback (name : string) (attemptMap : gmap string AttemptInfo)
    (run : CheckRunApi) : M CheckRun :=
  let runId := runIdOf run in
  attemptInfo ← assertIsDefined (attemptMap !! api_checkName run) "attemptInfo";
  newResults ← mapM (λ i result, new (mkCheckResultF result (runId +:+ "-" +:+ pretty i))) 0
                 (default [] (api_results run));
  resultsArr ← new newResults;
  new (mkCheckRunF run name runId
         (bool_decide (latestAttempt attemptInfo = api_attempt run))
         (isSingleAttempt attemptInfo)
         (attempts attemptInfo)
         (Some resultsArr)).

Definition updateStateSetResults (name : string) (newRuns : list CheckRunApi)
    (newActions : list Action) (newLinks : list Link) (patchset : ChecksPatchset) : M unit :=
  attemptMap ← liftCompletion (createAttemptMap newRuns);
  let attemptMap := sortInfo <$> attemptMap in
  cur ← getValue;
  nextState ← new (val cur);
  '(nextState, pluginState) ← getPluginState nextState patchset;
  let old := spread (val pluginState !! name) in
  mapped ← mapM (λ _, setResultsCallback name attemptMap) 0 newRuns;
  runsArr ← new mapped;
  entry ← new (resultsEntry old runsArr newActions newLinks);
  next (assign name entry patchset pluginState nextState).

(** The operations of the state store. *)
Inductive StoreOp :=
  | SetProvider (name : string) (patchset : ChecksPatchset)
  | SetLoading (name : string) (patchset : ChecksPatchset)
  | SetError (name : string) (message : string) (patchset : ChecksPatchset)
  | SetNotLoggedIn (name : string) (callback : LoginCallback) (patchset : ChecksPatchset)
  | SetResults (name : string) (newRuns : list CheckRunApi) (newActions : list Action)
      (newLinks : list Link) (patchset : ChecksPatchset)
  | UpdateResult (name : string) (run : CheckRunApi) (result : CheckResultApi)
      (patchset : ChecksPatchset).

Definition runOp (op : StoreOp) : M unit :=
  match op with
  | SetProvider name patchset => updateStateSetProvider name patchset
  | SetLoading name patchset => updateStateSetLoading name patchset
  | SetError name message patchset => updateStateSetError name message patchset
  | SetNotLoggedIn name callback patchset => updateStateSetNotLoggedIn name callback patchset
  | SetResults name newRuns newActions newLinks patchset =>
      updateStateSetResults name newRuns newActions newLinks patchset
  | UpdateResult name run result patchset =>
      updateStateUpdateResult name run result patchset
  end.

(** The model after a sequence of operations; an operation that throws
    leaves the model as it was when it threw, and the next one is run
    all the same. *)
Definition runOps (ops : list StoreOp) (m : ChecksModel) : ChecksModel :=
  foldl (λ m op, exec (runOp op) m) m ops.

End StoreWithAttemptMap.

(** ** Reading a snapshot *)

(** The current snapshot, and the snapshots published so far. *)
Definition currentState (m : ChecksModel) : ChecksState := subject_value (privateState m).

Definition emitted (m : ChecksModel) : list ChecksState := subject_emitted (privateState m).

(** The entry of a plugin in a context of a snapshot. *)
Definition entryOf (patchset : ChecksPatchset) (name : string) (state : ChecksState)
    : option ChecksProviderState :=
  val (pluginStateOf patchset state) !! name.

(** The snapshot a writer publishes: the copy of [cur] at address [a],
    whose map of the context [patchset] is a copy at address [b] in
    which [name] is bound to [entry]. *)
Definition publishedState (a b : loc) (patchset : ChecksPatchset) (name : string)
    (entry : ChecksProviderState) (cur : ChecksState) : ChecksState :=
  set_pluginStateOf patchset
    (mkObj b (<[name := entry]> (val (pluginStateOf patchset cur))))
    (mkObj a (val cur)).

Definition otherPatchset (patchset : ChecksPatchset) : ChecksPatchset :=
  match patchset with
  | LATEST => SELECTED
  | SELECTED => LATEST
  end.

(** * The rest of the model *)

(** ** Derived views *)

(** The selectors map a context map through [Object.keys],
    [Object.values] or [Object.entries], which enumerate the own
    properties of the object in the order JavaScript keeps.  The maps of
    the embedding do not record that order: a selector is embedded as a
    function of the enumeration it iterates over, and [enumerates] says
    of a list that it lists the entries of a context map, each once, in
    some order. *)
Definition enumerates (entries : list (string * ChecksProviderState)) (p : PluginState)
    : Prop :=
  entries ≡ₚ map_to_list (val p).

(** The truthiness of a property that holds a boolean when it is
    defined. *)
Definition truthyBool (b : option bool) : bool := default false b.


Definition someProvidersAreLoadingFirstTime (values : list ChecksProviderState) : bool :=
  existsb (λ provider, truthyBool (loading (val provider))
                       && truthyBool (firstTimeLoad (val provider))) values.

(** The mapper of [someProvidersAreLoadingLatest$] and of
    [someProvidersAreLoadingSelected$]. *)
Definition someProvidersAreLoading (values : list ChecksProviderState) : bool :=
  existsb (λ providerState, truthyBool (loading (val providerState))) values.

Definition errorMessageLatest (values : list ChecksProviderState) : option string :=
  find (λ providerState, bool_decide (errorMessage (val providerState) ≠ None)) values
    ≫= λ providerState, errorMessage (val providerState).

(** The name of the property that [o[key] = v] writes: the key as a
    string. *)
Definition propertyKey (key : option string) : string := default "undefined" key.

Definition errorMessagesLatest (values : list ChecksProviderState) : gmap string string :=
  foldl (λ errorMessages providerState,
           match errorMessage (val providerState) with
           | None => errorMessages
           | Some message =>
               <[propertyKey (pluginName (val providerState)) := message]> errorMessages
           end) ∅ values.

Definition loginCallbackLatest (values : list ChecksProviderState) : option LoginCallback :=
  find (λ providerState, bool_decide (loginCallback (val providerState) ≠ None)) values
    ≫= λ providerState, loginCallback (val providerState).

(** [values.reduce((all, providerState) => [...all, ...get(providerState)], [])]:
    spreading [undefined] into an array literal throws a [TypeError],
    which ends the reduction. *)
Definition reduceSpread {A : Type} (get : ChecksProviderState → option (list A))
    (values : list ChecksProviderState) : Completion (list A) :=
  foldl (λ acc providerState,
           match acc with
           | Throw e => Throw e
           | Normal all =>
               match get providerState with
               | Some items => Normal (all ++ items)
               | None => Throw (TypeError "undefined is not iterable")
               end
           end) (Normal []) values.

(** The mapper of [topLevelActionsLatest$] and [topLevelActionsSelected$]. *)
Definition topLevelActions (values : list ChecksProviderState) : Completion (list Action) :=
  reduceSpread (λ providerState, actions (val providerState)) values.

Definition topLevelLinksSelected (values : list ChecksProviderState)
    : Completion (list Link) :=
  reduceSpread (λ providerState, links (val providerState)) values.

(** The mapper of [allRunsLatestPatchset$] and [allRunsSelectedPatchset$]. *)
Definition allRuns (values : list ChecksProviderState) : Completion (list CheckRun) :=
  reduceSpread (λ providerState, val <$> runs (val providerState)) values.

Definition allRunsLatestPatchsetLatestAttempt (allRunsLatest : list CheckRun)
    : list CheckRun :=
  List.filter (λ run, isLatestAttempt (val run)) allRunsLatest.

(** [for (const run of providerState.runs) map.set(run.checkName, pluginName)]
    for every entry; iterating over [undefined] throws. *)
Definition checkToPluginMap (entries : list (string * ChecksProviderState))
    : Completion (gmap string string) :=
  foldl (λ acc entry,
           match acc with
           | Throw e => Throw e
           | Normal map =>
               match runs (val entry.2) with
               | Some providerRuns =>
                   Normal (foldl (λ map run, <[run_checkName run := entry.1]> map)
                             map (val providerRuns))
               | None => Throw (TypeError "undefined is not iterable")
               end
           end) (Normal ∅) entries.

(** The results are objects, none of them [undefined]: the final
    [filter(r => r !== undefined)] keeps them all. *)
Definition allResultsSelected (values : list ChecksProviderState)
    : Completion (list CheckResult) :=
  foldl (λ acc providerState,
           match acc with
           | Throw e => Throw e
           | Normal allResults =>
               match runs (val providerState) with
               | Some providerRuns =>
                   Normal (allResults ++
                           foldl (λ collected run, collected ++ resultsOf run) []
                             (val providerRuns))
               | None =>
                   Throw (TypeError "Cannot read properties of undefined (reading 'reduce')")
               end
           end) (Normal []) values.

(** ** Reloading *)


(** [this.reloadSubjects[pluginName].next()]. *)
Definition reload (name : string) : M unit :=
  subjects ← gets reloadSubjects;
  subject ← readOf (subjects !! name) "next";
  modify (set_reloadSubjects
            <[name := mkSubject tt (subject_emitted subject ++ [tt])]>).



(** ** The subscribers of the constructor and of [triggerAction] *)

(** What the router gives as patchset: nothing, the edit patchset, or a
    number (router-model.ts is not among the sources; the subscriber
    only asks whether the value is a number). *)
Inductive RouterPatchNum :=
  | RouterNone
  | RouterEdit
  | RouterNumber (n : Z).

(** The subscriber of [combineLatest([routerPatchNum$, latestPatchNum$])]. *)
Definition patchNumsSubscriber (routerPs : RouterPatchNum) (latestPs : option Z) : M unit :=
  modify (set_latestPatchNum latestPs);;
  match latestPs with
  | None => setPatchset None
  | Some latest =>
      match routerPs with
      | RouterNumber n => setPatchset (Some n)
      | _ => setPatchset (Some latest)
      end
  end.

(** The subscriber of [changeNum$]. *)
Definition changeNumSubscriber (x : option Z) : M unit := modify (set_changeNum x).





(** ** The responses of a provider *)

(** [ResponseCode]: [OK], [ERROR], [NOT_LOGGED_IN]. *)
Inductive ResponseCode :=
  | RESPONSE_OK
  | RESPONSE_ERROR
  | RESPONSE_NOT_LOGGED_IN.

Record FetchResponse := mkFetchResponse {
  responseCode : ResponseCode;
  response_errorMessage : option string;
  response_loginCallback : option LoginCallback;
  response_actions : option (list Action);
  response_links : option (list Link);
  response_runs : option (list CheckRunApi)
}.

(** [empty()]. *)
Definition emptyResponse : FetchResponse :=
  mkFetchResponse RESPONSE_OK None None None None (Some []).

(** [createErrorResponse], given [JSON.stringify(message)]. *)
Definition createErrorResponse (name : string) (stringified : string) : FetchResponse :=
  mkFetchResponse RESPONSE_ERROR
    (Some ("Error message from plugin '" +:+ name +:+ "':" +:+ " " +:+ stringified))
    None None None None.

Inductive Execution := CHECKS_API_ERROR | CHECKS_API_NOT_LOGGED_IN.

(** A call of [reporting.reportExecution]. *)
Record ExecutionReport := mkReport {
  report_execution : Execution;
  report_plugin : string;
  report_message : option string
}.

Section Responses.

Variable createAttemptMap : list CheckRunApi → Completion (gmap string AttemptInfo).

(** The subscriber of the fetch pipeline of [initFetchingOfData]; its
    value is the execution it reported, if any. *)
Definition fetchResponseSubscriber (name : string) (patchset : ChecksPatchset)
    (response : FetchResponse) : M (option ExecutionReport) :=
  match responseCode response with
  | RESPONSE_ERROR =>
      let message := default "-" (response_errorMessage response) in
      updateStateSetError name message patchset;;
      mret (Some (mkReport CHECKS_API_ERROR name (Some message)))
  | RESPONSE_NOT_LOGGED_IN =>
      callback ← assertIsDefined (response_loginCallback response) "loginCallback";
      updateStateSetNotLoggedIn name callback patchset;;
      mret (Some (mkReport CHECKS_API_NOT_LOGGED_IN name None))
  | RESPONSE_OK =>
      updateStateSetResults createAttemptMap name
        (default [] (response_runs response))
        (default [] (response_actions response))
        (default [] (response_links response)) patchset;;
      mret None
  end.

(** What is done to a model from outside: a plugin registers, the store
    is written, the router or the change gives new patchset numbers, a
    reload is asked for. *)
Inductive ModelOp :=
  | Register (name : string) (provider : ChecksProvider) (config : option ChecksApiConfig)
  | Store (op : StoreOp)
  | PatchNums (routerPs : RouterPatchNum) (latestPs : option Z)
  | Reload (name : string).

Definition runModelOp (op : ModelOp) : M unit :=
  match op with
  | Register name provider config => register name provider config
  | Store op => runOp createAttemptMap op
  | PatchNums routerPs latestPs => patchNumsSubscriber routerPs latestPs
  | Reload name => reload name
  end.

Definition runModelOps (ops : list ModelOp) (m : ChecksModel) : ChecksModel :=
  foldl (λ m op, exec (runModelOp op) m) m ops.

End Responses.

(** The plugin a store operation writes for. *)
Definition opName (op : StoreOp) : string :=
  match op with
  | SetProvider name _ | SetLoading name _ | SetError name _ _
  | SetNotLoggedIn name _ _ | SetResults name _ _ _ _ | UpdateResult name _ _ _ => name
  end.

Definition opPatchset (op : StoreOp) : ChecksPatchset :=
  match op with
  | SetProvider _ patchset | SetLoading _ patchset | SetError _ _ patchset
  | SetNotLoggedIn _ _ patchset | SetResults _ _ _ _ patchset
  | UpdateResult _ _ _ patchset => patchset
  end.

(** ** The attempts of the hovercard (gr-hovercard-run.ts) *)

(** [{icon: {name: 'more-horiz'}, attempt: undefined}]; the icon has no
    [filled] property, which reads as false. *)
Definition moreAttempts : AttemptDetail :=
  mkAttemptDetail None (mkChecksIcon "more-horiz" false).

(** [computeAttempts]: [details.slice(-7)] is the last seven details, or
    all of them when there are fewer. *)
Definition computeAttempts (run : option CheckRun) : list AttemptDetail :=
  let details := from_option (λ r, attemptDetails (val r)) [] run in
  let more := if bool_decide (7 < length details)%nat then [moreAttempts] else [] in
  more ++ drop (length details - 7) details.

Definition hideAttempts (run : option CheckRun) : bool :=
  match run with
  | None => true
  | Some r => bool_decide (length (attemptDetails (val r)) < 2)%nat
  end.

(** * The vocabulary of the properties *)

(** ** What a method did to the model *)

(** The model after a writer has published [entry] for [name] in the
    context [patchset]: the snapshot and its context map are the first
    two objects the writer allocated, and [top] is the first address
    that is free afterwards. *)
Definition publish (patchset : ChecksPatchset) (name : string)
    (entry : ChecksProviderState) (top : loc) (m : ChecksModel) : ChecksModel :=
  let s := publishedState (heapTop m) (S (heapTop m)) patchset name entry (currentState m) in
  set_heapTop (λ _, top) (set_privateState (λ b, mkSubject s (subject_emitted b ++ [s])) m).

(** The callback of an action that is given and has one. *)
Definition callbackOf (action : option Action) : option ActionCallback :=
  action ≫= action_callback.

(** [c] changes nothing of the model but the first free address, which
    it does not lower. *)
Definition allocOnly {A : Type} (c : M A) : Prop :=
  ∀ m, ∃ top, (heapTop m ≤ top)%nat ∧ (c m).2 = set_heapTop (λ _, top) m.

(** ** The runs and results of an update *)

(** The run is the one of the update: same change, patchset, attempt
    and check name. *)
Definition runMatches (updatedRun : CheckRunApi) (run : CheckRun) : bool :=
  bool_decide (run_change run = api_change updatedRun)
  && bool_decide (run_patchset run = api_patchset updatedRun)
  && bool_decide (run_attempt run = api_attempt updatedRun)
  && bool_decide (run_checkName run = api_checkName updatedRun).

Definition runHasMatch (updatedRun : CheckRunApi) (updatedResult : CheckResultApi)
    (run : CheckRun) : bool :=
  runMatches updatedRun run && existsb (resultMatches updatedResult) (resultsOf run).

(** How a result after the update relates to the result at its place
    before: a result that matches is replaced by an object allocated
    from [base] on, which has the properties of the update and the
    internal id of the old result; any other result is the same object. *)
Definition resultUpdated (base : loc) (updatedResult : CheckResultApi)
    (old new : CheckResult) : Prop :=
  if resultMatches updatedResult old
  then (base ≤ addr new)%nat
       ∧ val new = mkCheckResultF updatedResult (internalResultId (val old))
  else new = old.

(** The same for a run: a run of the update with a matching result is
    replaced by a new object that differs in its array of results only;
    any other run is the same object. *)
Definition runUpdated (base : loc) (updatedRun : CheckRunApi)
    (updatedResult : CheckResultApi) (old new : CheckRun) : Prop :=
  if runHasMatch updatedRun updatedResult old
  then (base ≤ addr new)%nat
       ∧ ∃ newResults, val new = withResults newResults (val old)
           ∧ (base ≤ addr newResults)%nat
           ∧ Forall2 (resultUpdated base updatedResult) (resultsOf old) (val newResults)
  else new = old.

(** How the entry of the plugin after [updateStateUpdateResult] relates
    to its entry before: it differs by its array of runs at most, the
    runs are the updated ones, and it is the same object when no result
    matches, a new object with a new array of runs otherwise. *)
Definition entryUpdated (base : loc) (updatedRun : CheckRunApi)
    (updatedResult : CheckResultApi) (old new : ChecksProviderState) : Prop :=
  ∃ oldRuns newRuns,
    runs (val old) = Some oldRuns
    ∧ val new = withRuns newRuns (val old)
    ∧ Forall2 (runUpdated base updatedRun updatedResult) (val oldRuns) (val newRuns)
    ∧ if existsb (runHasMatch updatedRun updatedResult) (val oldRuns)
      then (base ≤ addr new)%nat ∧ (base ≤ addr newRuns)%nat
      else new = old.

(** ** The data of a snapshot *)

(** The data of an object: the object with its address, and the
    addresses of the objects in it, erased.  Two objects with the same
    data have the same properties with the same values all the way
    down, whether they are the same object or not. *)
Definition dataOfResult (r : CheckResult) : CheckResult := mkObj 0%nat (val r).

Definition dataOfRun (r : CheckRun) : CheckRun :=
  mkObj 0%nat
    (mkCheckRunF (run_api (val r)) (run_pluginName (val r)) (internalRunId (val r))
       (isLatestAttempt (val r)) (run_isSingleAttempt (val r)) (attemptDetails (val r))
       ((λ a : Arr CheckResult, mkObj 0%nat (dataOfResult <$> val a)) <$> results (val r))).

Definition dataOfEntry (e : ChecksProviderState) : ChecksProviderState :=
  mkObj 0%nat
    (mkProviderState (pluginName (val e)) (loading (val e)) (firstTimeLoad (val e))
       (errorMessage (val e)) (loginCallback (val e))
       ((λ a : Arr CheckRun, mkObj 0%nat (dataOfRun <$> val a)) <$> runs (val e))
       (actions (val e)) (links (val e))).

Definition dataOfPluginState (p : PluginState) : PluginState :=
  mkObj 0%nat (dataOfEntry <$> val p).

Definition dataOfState (s : ChecksState) : ChecksState :=
  mkObj 0%nat
    (mkChecksState (patchsetNumberSelected (val s))
       (dataOfPluginState (pluginStateLatest (val s)))
       (dataOfPluginState (pluginStateSelected (val s)))).

(** Two completions that agree up to [d]: both return, values with the
    same image by [d], or both throw the same error. *)
Definition sameOutcome {A : Type} (d : A → A) (c1 c2 : Completion A) : Prop :=
  match c1, c2 with
  | Normal a1, Normal a2 => d a1 = d a2
  | Throw e1, Throw e2 => e1 = e2
  | _, _ => False
  end.

(** ** The two markers of a provider state *)

(** [errorMessage] and [loginCallback] are not both defined. *)
Definition markersExclusive (e : ChecksProviderState) : Prop :=
  ¬ (is_Some (errorMessage (val e)) ∧ is_Some (loginCallback (val e))).

Definition stateExclusive (s : ChecksState) : Prop :=
  map_Forall (λ _, markersExclusive) (val (pluginStateLatest (val s)))
  ∧ map_Forall (λ _, markersExclusive) (val (pluginStateSelected (val s))).

(** The current snapshot and every snapshot that was published. *)
Definition modelExclusive (m : ChecksModel) : Prop :=
  stateExclusive (currentState m) ∧ Forall stateExclusive (emitted m).

(** ** The entry of a registered plugin *)

(** The plugin has an entry with an array of runs in the context. *)
Definition hasRuns (patchset : ChecksPatchset) (name : string) (s : ChecksState) : Prop :=
  ∃ e r, entryOf patchset name s = Some e ∧ runs (val e) = Some r.

(** The completion is a value, not an exception. *)
Definition returnsNormally {A : Type} (c : Completion A) : Prop := ∃ a, c = Normal a.


(** ** Registered plugins *)

(** What the entry of a registered plugin has: the name of the plugin
    and every property that the interface requires. *)
Definition entryComplete (name : string) (e : ChecksProviderState) : Prop :=
  pluginName (val e) = Some name
  ∧ is_Some (loading (val e)) ∧ is_Some (firstTimeLoad (val e))
  ∧ is_Some (runs (val e)) ∧ is_Some (actions (val e)) ∧ is_Some (links (val e)).

(** The context has an entry for the registered plugins and no other,
    and the entries are complete. *)
Definition contextRegistered (patchset : ChecksPatchset) (m : ChecksModel) : Prop :=
  dom (val (pluginStateOf patchset (currentState m))) =@{gset string} dom (providers m)
  ∧ map_Forall entryComplete (val (pluginStateOf patchset (currentState m))).

(** The registry, the reload subjects and the two contexts of the
    current snapshot are about the same plugins. *)
Definition wellRegistered (m : ChecksModel) : Prop :=
  dom (reloadSubjects m) =@{gset string} dom (providers m)
  ∧ contextRegistered LATEST m ∧ contextRegistered SELECTED m.

(** The store is written for registered plugins only: every store
    operation of [ops] names a plugin that is registered when the
    operation is run. *)
Fixpoint disciplined (createAttemptMap : list CheckRunApi → Completion (gmap string AttemptInfo))
    (ops : list ModelOp) (m : ChecksModel) : Prop :=
  match ops with
  | [] => True
  | op :: ops' =>
      match op with
      | Store o => is_Some (providers m !! opName o)
      | _ => True
      end
      ∧ disciplined createAttemptMap ops' (exec (runModelOp createAttemptMap op) m)
  end.

(** The plugin [entry.1] has a run of the check [c]. *)
Definition claimsCheck (c : string) (entry : string * ChecksProviderState) : Prop :=
  ∃ run, run ∈ from_option val [] (runs (val entry.2)) ∧ run_checkName run = c.

(** The attempts are in ascending order of [attempt ?? -1]. *)
Definition attemptsSorted (l : list AttemptDetail) : Prop :=
  StronglySorted (λ a b, attemptKey a ≤ attemptKey b) l.

(** What [updateStateSetResults] makes of a run of the provider, given
    the entry [info] of its check name in the sorted attempt map: the
    properties of the run, the name of the plugin, the id, the attempt
    properties read from [info], and the results in their order, each
    with the id of the run and its index as id. *)
Definition runBuilt (name : string) (attemptMap : gmap string AttemptInfo)
    (run : CheckRunApi) (built : CheckRun) : Prop :=
  ∃ info resultsArr,
    attemptMap !! api_checkName run = Some info
    ∧ val built
      = mkCheckRunF run name (runIdOf run)
          (bool_decide (latestAttempt info = api_attempt run))
          (isSingleAttempt info) (attempts info) (Some resultsArr)
    ∧ val <$> val resultsArr
      = imap (λ i result, mkCheckResultF result (runIdOf run +:+ "-" +:+ pretty i))
          (default [] (api_results run)).

(** * Example models *)

Definition exampleIcon (run : CheckRunApi) : ChecksIcon :=
  match api_status run with
  | COMPLETED => mkChecksIcon "check_circle" true
  | _ => mkChecksIcon "timelapse" false
  end.

Definition exampleAttemptMap (runs : list CheckRunApi) : Completion (gmap string AttemptInfo) :=
  Normal (aggregate exampleIcon runs).

Definition resultLint : CheckResultApi :=
  mkCheckResultApi (Some "lint-1") WARNING "line too long" None [].

Definition resultNoId : CheckResultApi :=
  mkCheckResultApi (Some "") INFO "flaky" None [].

Definition runBuild1 : CheckRunApi :=
  mkCheckRunApi 42 5 (Some 1) None "build" None COMPLETED None []
    (Some [resultLint; resultNoId]).

Definition runBuild2 : CheckRunApi :=
  mkCheckRunApi 42 5 (Some 2) None "build" None RUNNING None [] None.

(** The plugin "ci" has registered and its fetch for the latest
    patchset has returned two attempts of the check "build". *)
Definition modelWithRuns : ChecksModel :=
  exec (updateStateSetResults exampleAttemptMap "ci" [runBuild1; runBuild2] [] [] LATEST)
    (exec (register "ci" (mkProvider 0) None) initialModel).

(** Only the selected patchset has results of the plugin "ci": the
    store was written for this context alone. *)
Definition modelSelectedOnly : ChecksModel :=
  exec (updateStateSetResults exampleAttemptMap "ci" [runBuild1] [] [] SELECTED)
    (exec (updateStateSetProvider "ci" SELECTED) initialModel).

(** A model in which the plugin "ci" is registered, the latest patchset
    is 5 and patchset 0 was selected. *)
Definition modelSelectingZero : ChecksModel :=
  exec (setPatchset (Some 0))
    (set_latestPatchNum (Some 5) (exec (register "ci" (mkProvider 0) None) initialModel)).

(** * Properties *)

(** ** Reading a published snapshot *)

Lemma entryOf_published a b patchset name entry cur :
  entryOf patchset name (publishedState a b patchset name entry cur) = Some entry.
Proof.
  unfold entryOf, publishedState. destruct patchset; simpl; apply lookup_insert_eq.
Qed.

Lemma entryOf_published_ne a b patchset name name' entry cur :
  name ≠ name' →
  entryOf patchset name' (publishedState a b patchset name entry cur)
  = entryOf patchset name' cur.
Proof.
  intros Hne. unfold entryOf, publishedState.
  destruct patchset; simpl; by apply lookup_insert_ne.
Qed.

Lemma pluginStateOf_published_other a b patchset name entry cur :
  pluginStateOf (otherPatchset patchset) (publishedState a b patchset name entry cur)
  = pluginStateOf (otherPatchset patchset) cur.
Proof. by destruct patchset. Qed.

Lemma patchsetNumberSelected_published a b patchset name entry cur :
  patchsetNumberSelected (val (publishedState a b patchset name entry cur))
  = patchsetNumberSelected (val cur).
Proof. by destruct patchset. Qed.

Lemma updateStateSetProvider_eq name patchset m :
  updateStateSetProvider name patchset m
  = (Normal tt,
     publish patchset name
       (mkObj (3 + heapTop m)%nat
          (mkProviderState (Some name) (Some false) (Some true) None None
             (Some (mkObj (2 + heapTop m)%nat [])) (Some []) (Some [])))
       (4 + heapTop m)%nat m).
Proof. by destruct patchset. Qed.

Lemma updateStateSetLoading_eq name patchset m :
  let old := spread (entryOf patchset name (currentState m)) in
  updateStateSetLoading name patchset m
  = (Normal tt,
     publish patchset name
       (mkObj (2 + heapTop m)%nat
          (mkProviderState (pluginName old) (Some true) (firstTimeLoad old)
             (errorMessage old) (loginCallback old) (runs old) (actions old) (links old)))
       (3 + heapTop m)%nat m).
Proof. by destruct patchset. Qed.

Lemma updateStateSetError_eq name message patchset m :
  let old := spread (entryOf patchset name (currentState m)) in
  updateStateSetError name message patchset m
  = (Normal tt,
     publish patchset name
       (mkObj (3 + heapTop m)%nat
          (mkProviderState (pluginName old) (Some false) (Some false) (Some message) None
             (Some (mkObj (2 + heapTop m)%nat [])) (Some []) (links old)))
       (4 + heapTop m)%nat m).
Proof. by destruct patchset. Qed.

Lemma updateStateSetNotLoggedIn_eq name callback patchset m :
  let old := spread (entryOf patchset name (currentState m)) in
  updateStateSetNotLoggedIn name callback patchset m
  = (Normal tt,
     publish patchset name
       (mkObj (3 + heapTop m)%nat
          (mkProviderState (pluginName old) (Some false) (Some false) None (Some callback)
             (Some (mkObj (2 + heapTop m)%nat [])) (Some []) (links old)))
       (4 + heapTop m)%nat m).
Proof. by destruct patchset. Qed.

Lemma currentState_publish patchset name entry top m :
  currentState (publish patchset name entry top m)
  = publishedState (heapTop m) (S (heapTop m)) patchset name entry (currentState m).
Proof. done. Qed.

(** ** The error state of a provider *)

(** C4.  Whatever the entry of the plugin was, [updateStateSetError]
    returns, and the entry it publishes has [loading] and
    [firstTimeLoad] false, the message as [errorMessage], no
    [loginCallback], an empty array of runs and no actions; its [links]
    are the ones the entry had before ([undefined] when there was no
    entry). *)
Theorem updateStateSetError_entry (name message : string) (patchset : ChecksPatchset)
    (m : ChecksModel) :
  let before := entryOf patchset name (currentState m) in
  let m' := exec (updateStateSetError name message patchset) m in
  returns (updateStateSetError name message patchset) m ∧
  ∃ entry noRuns,
    entryOf patchset name (currentState m') = Some entry ∧
    loading (val entry) = Some false ∧
    firstTimeLoad (val entry) = Some false ∧
    errorMessage (val entry) = Some message ∧
    loginCallback (val entry) = None ∧
    runs (val entry) = Some noRuns ∧ val noRuns = [] ∧
    actions (val entry) = Some [] ∧
    links (val entry) = before ≫= (λ e, links (val e)).
Proof.
  intros before m'. subst m'. unfold returns, exec.
  rewrite updateStateSetError_eq. simpl. split; [by exists tt |].
  eexists _, _. rewrite currentState_publish, entryOf_published.
  repeat split. simpl. subst before. by destruct (entryOf _ _ _).
Qed.

(** ** Selecting a patchset *)

(** C2.  With [L] the latest patchset number the model knows,
    [setPatchset(n)] stores [undefined] as the selected patchset number
    when [n] is [L], and [n] when it is not. *)
Theorem setPatchset_normalizes (n L : Z) (m : ChecksModel) :
  latestPatchNum m = Some L →
  let m' := exec (setPatchset (Some n)) m in
  (n = L → checksSelectedPatchsetNumber (currentState m') = None) ∧
  (n ≠ L → checksSelectedPatchsetNumber (currentState m') = Some n).
Proof.
  intros HL m'. subst m'. unfold exec, setPatchset, gets, mbind, M_bind.
  rewrite HL. split; intros Hn.
  - rewrite bool_decide_eq_true_2 by congruence. done.
  - rewrite bool_decide_eq_false_2 by congruence. done.
Qed.

(** Scenario C: [setPatchset(5)] and [setPatchset(3)] when the latest
    patchset is 5. *)
Lemma setPatchset_normalizes_witness :
  checksSelectedPatchsetNumber
    (currentState (exec (setPatchset (Some 5)) (set_latestPatchNum (Some 5) initialModel)))
  = None ∧
  checksSelectedPatchsetNumber
    (currentState (exec (setPatchset (Some 3)) (set_latestPatchNum (Some 5) initialModel)))
  = Some 3.
Proof.
  split.
  - apply (setPatchset_normalizes 5 5 (set_latestPatchNum (Some 5) initialModel));
      reflexivity.
  - apply (setPatchset_normalizes 3 5 (set_latestPatchNum (Some 5) initialModel));
      [reflexivity | lia].
Defined.

(** ** The view of the selected patchset *)

(** C8 as it is stated fails: the selector tests the selected patchset
    number for truthiness, so with the number 0, which is defined, the
    view is the map of the latest patchset, a different object from the
    map of the selected one. *)
Lemma checksSelected_zero_counterexample :
  let s := currentState modelSelectingZero in
  is_Some (patchsetNumberSelected (val s)) ∧
  checksSelected s = pluginStateLatest (val s) ∧
  ¬ sameRef (checksSelected s) (pluginStateSelected (val s)).
Proof.
  split; [by eexists |]. split; [reflexivity |].
  unfold sameRef. vm_compute. lia.
Qed.

(** C8, amended.  For every snapshot the view of the selected patchset
    is the map [pluginStateSelected] when the selected patchset number
    is defined and not 0, and the map [pluginStateLatest] when it is
    undefined (or 0); it is a function of the snapshot alone. *)
Theorem checksSelected_view (state : ChecksState) :
  (∀ n, patchsetNumberSelected (val state) = Some n → n ≠ 0 →
        checksSelected state = pluginStateSelected (val state)) ∧
  (patchsetNumberSelected (val state) = None ∨ patchsetNumberSelected (val state) = Some 0 →
        checksSelected state = pluginStateLatest (val state)).
Proof.
  unfold checksSelected. split.
  - intros n -> Hn. simpl. by destruct (Z.eqb_spec n 0).
  - by intros [-> | ->].
Qed.

(** ** Triggering an action *)

Lemma triggerAction_ignored action run m :
  callbackOf action = None ∨ whenTruthy (changeNum m) = None
  ∨ whenTruthy (patchSetFor run (latestPatchNum m)) = None →
  triggerAction action run m = (Normal tt, m).
Proof.
  unfold callbackOf, triggerAction. intros H.
  destruct action as [[nm tip [cb|]]|]; simpl; try done.
  unfold mbind, M_bind, gets. simpl.
  destruct (whenTruthy (changeNum m)) as [c|]; [| done].
  destruct (whenTruthy (patchSetFor run (latestPatchNum m))) as [p|]; [| done].
  by destruct H as [H | [H | H]].
Qed.

Lemma triggerAction_invokes action a callback change patchSet run m :
  action = Some a → action_callback a = Some callback →
  whenTruthy (changeNum m) = Some change →
  whenTruthy (patchSetFor run (latestPatchNum m)) = Some patchSet →
  let args :=
    mkCallbackArgs change patchSet (run ≫= run_attempt) (run ≫= run_externalId)
      (run_checkName <$> run) (action_name a) in
  ∃ rest, effects (exec (triggerAction (Some a) run) m)
          = effects m ++ CallbackInvoked args :: rest.
Proof.
  intros -> Hcb Hc Hp args. unfold exec, triggerAction. simpl. rewrite Hcb. simpl.
  unfold mbind, M_bind, gets. simpl. rewrite Hc, Hp. subst args. simpl.
  match goal with |- context [callback ?x] => destruct (callback x) end;
    simpl; rewrite <- ?app_assoc; by eexists.
Qed.

Lemma whenTruthy_None_of_undefined n : n = None → whenTruthy n = None.
Proof. by intros ->. Qed.

(** C9.  If [triggerAction] invokes a callback, then the action has a
    callback, the model knows the change number and a patchset number
    is resolved (the one of the run, else the latest).  If the callback
    is missing, or the change number is unknown, or no patchset number
    is resolved, the call does nothing at all: the model and the effects
    are what they were, so no callback was invoked and no alert fired.
    When the action has a callback, and the change number and the
    resolved patchset number are truthy, the callback is invoked with
    them. *)
Theorem triggerAction_preconditions (action : option Action) (run : option CheckRun)
    (m : ChecksModel) :
  let m' := exec (triggerAction action run) m in
  let resolved := patchSetFor run (latestPatchNum m) in
  ((∃ args, CallbackInvoked args ∈ drop (length (effects m)) (effects m')) →
     is_Some (callbackOf action) ∧ is_Some (changeNum m) ∧ is_Some resolved) ∧
  (callbackOf action = None ∨ changeNum m = None ∨ resolved = None →
     triggerAction action run m = (Normal tt, m)) ∧
  (∀ a callback change patchSet,
     action = Some a → action_callback a = Some callback →
     whenTruthy (changeNum m) = Some change → whenTruthy resolved = Some patchSet →
     ∃ rest, effects m' = effects m ++
       CallbackInvoked (mkCallbackArgs change patchSet (run ≫= run_attempt)
         (run ≫= run_externalId) (run_checkName <$> run) (action_name a)) :: rest).
Proof.
  intros m' resolved. subst m' resolved. split; [| split].
  - intros [args Hin].
    destruct (callbackOf action) as [cb|] eqn:Hcb; cycle 1.
    { unfold exec in Hin. rewrite triggerAction_ignored in Hin by auto.
      simpl in Hin. rewrite drop_all in Hin. by apply elem_of_nil in Hin. }
    destruct (changeNum m) as [c|] eqn:Hc; cycle 1.
    { unfold exec in Hin. rewrite triggerAction_ignored in Hin
        by (right; left; by rewrite Hc).
      simpl in Hin. rewrite drop_all in Hin. by apply elem_of_nil in Hin. }
    destruct (patchSetFor run (latestPatchNum m)) as [p|] eqn:Hp; cycle 1.
    { unfold exec in Hin. rewrite triggerAction_ignored in Hin
        by (right; right; by rewrite Hp).
      simpl in Hin. rewrite drop_all in Hin. by apply elem_of_nil in Hin. }
    by repeat split.
  - intros H. apply triggerAction_ignored.
    destruct H as [H | [H | H]]; auto using whenTruthy_None_of_undefined.
  - intros a callback change patchSet -> Hcb Hc Hp.
    by eapply triggerAction_invokes.
Qed.

(** Scenario E: an action with a callback, triggered while no change
    number is set. *)
Example triggerAction_no_change_number :
  let action := mkAction "rerun" None (Some (λ _, RetPromise 1)) in
  triggerAction (Some action) None (set_latestPatchNum (Some 5) initialModel)
  = (Normal tt, set_latestPatchNum (Some 5) initialModel).
Proof. intros action. apply triggerAction_ignored. right; left. reflexivity. Qed.

(** ** Registering twice *)

(** C10.  When the plugin name is registered already, [register] returns
    after a warning on the console: the providers, the reload subjects,
    the state (its current snapshot, hence the provider states of both
    contexts, and the list of published snapshots) and the subscribed
    fetch pipelines are the ones of before. *)
Theorem register_twice (name : string) (provider : ChecksProvider)
    (config : option ChecksApiConfig) (m : ChecksModel) :
  is_Some (providers m !! name) →
  let m' := exec (register name provider config) m in
  returns (register name provider config) m ∧
  providers m' = providers m ∧
  reloadSubjects m' = reloadSubjects m ∧
  privateState m' = privateState m ∧
  subscriptions m' = subscriptions m ∧
  ∃ warning, effects m' = effects m ++ [ConsoleWarn warning].
Proof.
  intros [p Hp] m'. subst m'. unfold returns, exec, register, gets, mbind, M_bind.
  simpl. rewrite Hp. simpl. repeat split; eauto.
Qed.

(** The plugin "ci" registers twice, with another provider the second
    time. *)
Lemma register_twice_witness :
  let m := exec (register "ci" (mkProvider 0) None) initialModel in
  let m' := exec (register "ci" (mkProvider 1) (Some (mkConfig (Some 10)))) m in
  providers m' = providers m ∧ subscriptions m' = subscriptions m
  ∧ privateState m' = privateState m.
Proof.
  intros m m'.
  destruct (register_twice "ci" (mkProvider 1) (Some (mkConfig (Some 10))) m)
    as (_ & H1 & _ & H3 & H4 & _).
  - vm_compute. by eexists.
  - by repeat split.
Defined.

(** ** Computations that only allocate *)

Lemma set_heapTop_same m : set_heapTop (λ _, heapTop m) m = m.
Proof. by destruct m. Qed.

Lemma allocOnly_ret {A} (a : A) : allocOnly (mret a).
Proof. intros m. exists (heapTop m). by rewrite set_heapTop_same. Qed.

Lemma allocOnly_throw {A} e : allocOnly (@throw A e).
Proof. intros m. exists (heapTop m). by rewrite set_heapTop_same. Qed.

Lemma allocOnly_new {A} (v : A) : allocOnly (new v).
Proof. intros m. exists (S (heapTop m)). split; [lia | done]. Qed.

Lemma allocOnly_bind {A B} (c : M A) (f : A → M B) :
  allocOnly c → (∀ a, allocOnly (f a)) → allocOnly (c ≫= f).
Proof.
  intros Hc Hf m. unfold mbind, M_bind.
  destruct (Hc m) as (top & Hle & Heq). destruct (c m) as [[a|e] m1]; simpl in *; subst m1.
  - destruct (Hf a (set_heapTop (λ _, top) m)) as (top' & Hle' & ->).
    exists top'. simpl in *. split; [lia | done].
  - by exists top.
Qed.

Lemma allocOnly_mapM {A B} (f : nat → A → M B) l :
  (∀ i x, allocOnly (f i x)) → ∀ i, allocOnly (mapM f i l).
Proof.
  intros Hf. induction l as [|x l IH]; intros i; simpl.
  - apply allocOnly_ret.
  - apply allocOnly_bind; [done |]. intros y.
    apply allocOnly_bind; [done |]. intros ys. apply allocOnly_ret.
Qed.

Lemma allocOnly_readOf {A} (o : option A) prop : allocOnly (readOf o prop).
Proof. destruct o; [apply allocOnly_ret | apply allocOnly_throw]. Qed.

Lemma allocOnly_assertIsDefined {A} (o : option A) v : allocOnly (assertIsDefined o v).
Proof. destruct o; [apply allocOnly_ret | apply allocOnly_throw]. Qed.

Lemma allocOnly_privateState {A} (c : M A) m :
  allocOnly c → privateState (exec c m) = privateState m.
Proof. intros Hc. unfold exec. by destruct (Hc m) as (top & _ & ->). Qed.

(** ** Updating one result *)

Lemma resultUpdated_mono base base' ures old new :
  (base ≤ base')%nat → resultUpdated base' ures old new → resultUpdated base ures old new.
Proof.
  unfold resultUpdated. destruct (resultMatches ures old); [| done].
  intros Hle [H1 H2]. split; [lia | done].
Qed.

Lemma runUpdated_mono base base' ur ures old new :
  (base ≤ base')%nat → runUpdated base' ur ures old new → runUpdated base ur ures old new.
Proof.
  unfold runUpdated. destruct (runHasMatch ur ures old); [| done].
  intros Hle (H1 & newResults & H2 & H3 & H4). split; [lia |].
  exists newResults. split_and!; [done | lia |].
  eapply Forall2_impl; [exact H4 |]. intros ??. by apply resultUpdated_mono.
Qed.

Lemma updateResultCallback_eq ures r m :
  updateResultCallback ures r m
  = if resultMatches ures r
    then (Normal (mkObj (heapTop m) (mkCheckResultF ures (internalResultId (val r))), true),
          set_heapTop S m)
    else (Normal (r, false), m).
Proof.
  unfold updateResultCallback. by destruct (resultMatches ures r).
Qed.

Lemma mapM_updateResultCallback ures rs i m :
  ∃ out top,
    mapM (λ _, updateResultCallback ures) i rs m = (Normal out, set_heapTop (λ _, top) m)
    ∧ (heapTop m ≤ top)%nat
    ∧ Forall2 (resultUpdated (heapTop m) ures) rs out.*1
    ∧ existsb snd out = existsb (resultMatches ures) rs.
Proof.
  revert i m. induction rs as [|r rs IH]; intros i m; simpl.
  - exists [], (heapTop m). rewrite set_heapTop_same. by split_and!.
  - unfold mbind, M_bind. rewrite updateResultCallback_eq.
    destruct (resultMatches ures r) eqn:Hr.
    + destruct (IH (S i) (set_heapTop S m)) as (out & top & -> & Hle & Hall & Hex).
      simpl in *.
      exists ((mkObj (heapTop m) (mkCheckResultF ures (internalResultId (val r))), true) :: out), top.
      split_and!; [done | lia | | done].
      constructor.
      * unfold resultUpdated. rewrite Hr. done.
      * eapply Forall2_impl; [exact Hall |]. intros ??. apply resultUpdated_mono. lia.
    + destruct (IH (S i) m) as (out & top & -> & Hle & Hall & Hex).
      exists ((r, false) :: out), top. split_and!; [done | done | | done].
      constructor; [| done]. unfold resultUpdated. by rewrite Hr.
Qed.

Lemma updateRunCallback_spec ur ures run m :
  ∃ new top,
    updateRunCallback ur ures run m
    = (Normal (new, runHasMatch ur ures run), set_heapTop (λ _, top) m)
    ∧ (heapTop m ≤ top)%nat
    ∧ runUpdated (heapTop m) ur ures run new.
Proof.
  assert (Hskip : runMatches ur run = false →
    ∃ new top, (Normal (run, false), m)
      = (Normal (new, runHasMatch ur ures run), set_heapTop (λ _, top) m)
      ∧ (heapTop m ≤ top)%nat ∧ runUpdated (heapTop m) ur ures run new).
  { intros Hno. exists run, (heapTop m). unfold runUpdated, runHasMatch.
    rewrite Hno, set_heapTop_same. by split_and!. }
  unfold updateRunCallback.
  destruct (bool_decide (run_change run = api_change ur)) eqn:H1; simpl;
    [| apply Hskip; unfold runMatches; by rewrite H1].
  destruct (bool_decide (run_patchset run = api_patchset ur)) eqn:H2; simpl;
    [| apply Hskip; unfold runMatches; by rewrite H1, H2].
  destruct (bool_decide (run_attempt run = api_attempt ur)) eqn:H3; simpl;
    [| apply Hskip; unfold runMatches; by rewrite H1, H2, H3].
  destruct (bool_decide (run_checkName run = api_checkName ur)) eqn:H4; simpl;
    [| apply Hskip; unfold runMatches; by rewrite H1, H2, H3, H4].
  clear Hskip. unfold mbind, M_bind.
  destruct (mapM_updateResultCallback ures (resultsOf run) 0 m)
    as (out & top & Hmap & Hle & Hall & Hex).
  rewrite Hmap. simpl. rewrite Hex.
  unfold runUpdated, runHasMatch, runMatches. rewrite H1, H2, H3, H4. simpl.
  destruct (existsb (resultMatches ures) (resultsOf run)); simpl.
  - eexists _, (S (S top)). split_and!; [reflexivity | lia | simpl; lia |].
    exists (mkObj top out.*1). split_and!; [done | simpl; lia | done].
  - eexists _, (S top). split_and!; [reflexivity | lia | done].
Qed.

Lemma mapM_updateRunCallback ur ures rs i m :
  ∃ out top,
    mapM (λ _, updateRunCallback ur ures) i rs m = (Normal out, set_heapTop (λ _, top) m)
    ∧ (heapTop m ≤ top)%nat
    ∧ Forall2 (runUpdated (heapTop m) ur ures) rs out.*1
    ∧ existsb snd out = existsb (runHasMatch ur ures) rs.
Proof.
  revert i m. induction rs as [|r rs IH]; intros i m; simpl.
  - exists [], (heapTop m). rewrite set_heapTop_same. by split_and!.
  - unfold mbind, M_bind.
    destruct (updateRunCallback_spec ur ures r m) as (new & top & -> & Hle & Hnew).
    destruct (IH (S i) (set_heapTop (λ _, top) m)) as (out & top' & -> & Hle' & Hall & Hex).
    simpl in *.
    exists ((new, runHasMatch ur ures r) :: out), top'.
    split_and!; [done | lia | | simpl; by rewrite Hex].
    constructor; [done |].
    eapply Forall2_impl; [exact Hall |]. intros ??. by apply runUpdated_mono.
Qed.

(** What [updateStateUpdateResult] does when the plugin has an entry
    with an array of runs: when no result matches, it allocates and
    returns; else it publishes a snapshot with a new entry, whose runs
    are the updated ones. *)
Lemma updateStateUpdateResult_eq name ur ures patchset m entry oldRuns :
  entryOf patchset name (currentState m) = Some entry →
  runs (val entry) = Some oldRuns →
  ∃ newRuns top,
    (heapTop m ≤ top)%nat
    ∧ Forall2 (runUpdated (heapTop m) ur ures) (val oldRuns) newRuns
    ∧ updateStateUpdateResult name ur ures patchset m
      = (Normal tt,
         if existsb (runHasMatch ur ures) (val oldRuns)
         then publish patchset name
                (mkObj (S top) (withRuns (mkObj top newRuns) (val entry))) (S (S top)) m
         else set_heapTop (λ _, S top) m).
Proof.
  intros Hentry Hruns.
  destruct (mapM_updateRunCallback ur ures (val oldRuns) 0
              (set_heapTop (λ _, S (S (heapTop m))) m))
    as (out & top & Hmap & Hle & Hall & Hex).
  exists out.*1, top. simpl in Hle. split; [lia |]. split.
  { eapply Forall2_impl; [exact Hall |]. intros ??. apply runUpdated_mono. simpl. lia. }
  unfold updateStateUpdateResult, publish, entryOf, currentState in *.
  destruct patchset; simpl in *; unfold mbind, M_bind; simpl;
    rewrite Hentry; simpl; rewrite Hruns; simpl;
    unfold set_heapTop in Hmap; simpl in Hmap; unfold set_heapTop; simpl;
    rewrite Hmap; simpl; rewrite Hex;
    by destruct (existsb (runHasMatch ur ures) (val oldRuns)).
Qed.

Lemma withRuns_same entry oldRuns :
  runs entry = Some oldRuns → withRuns oldRuns entry = entry.
Proof. destruct entry; simpl; by intros ->. Qed.

Lemma runUpdated_refl base ur ures rs :
  existsb (runHasMatch ur ures) rs = false → Forall2 (runUpdated base ur ures) rs rs.
Proof.
  induction rs as [|r rs IH]; simpl; [constructor |].
  intros [Hr Hrs]%orb_false_elim. constructor; [| by apply IH].
  unfold runUpdated. by rewrite Hr.
Qed.

Lemma entryUpdated_mono base base' ur ures old new :
  (base ≤ base')%nat → entryUpdated base' ur ures old new → entryUpdated base ur ures old new.
Proof.
  intros Hle (oldRuns & newRuns & H1 & H2 & H3 & H4).
  exists oldRuns, newRuns. split_and!; [done | done | |].
  - eapply Forall2_impl; [exact H3 |]. intros ??. by apply runUpdated_mono.
  - destruct (existsb _ _); [| done]. destruct H4. split; lia.
Qed.

(** One context, when the plugin has an entry with runs in it. *)
Lemma updateStateUpdateResult_context name ur ures patchset m entry oldRuns :
  entryOf patchset name (currentState m) = Some entry →
  runs (val entry) = Some oldRuns →
  let m' := exec (updateStateUpdateResult name ur ures patchset) m in
  (updateStateUpdateResult name ur ures patchset m).1 = Normal tt
  ∧ (heapTop m ≤ heapTop m')%nat
  ∧ pluginStateOf (otherPatchset patchset) (currentState m')
    = pluginStateOf (otherPatchset patchset) (currentState m)
  ∧ (∀ name', name ≠ name' →
       entryOf patchset name' (currentState m') = entryOf patchset name' (currentState m))
  ∧ ∃ new, entryOf patchset name (currentState m') = Some new
           ∧ entryUpdated (heapTop m) ur ures entry new.
Proof.
  intros Hentry Hruns m'. subst m'. unfold exec.
  destruct (updateStateUpdateResult_eq name ur ures patchset m entry oldRuns Hentry Hruns)
    as (newRuns & top & Hle & Hall & ->).
  simpl. destruct (existsb (runHasMatch ur ures) (val oldRuns)) eqn:Hex.
  - rewrite currentState_publish. split_and!; [done | simpl; lia | | |].
    + apply pluginStateOf_published_other.
    + intros name' Hne. by apply entryOf_published_ne.
    + eexists. split; [apply entryOf_published |].
      exists oldRuns, (mkObj top newRuns). rewrite Hex. simpl.
      split_and!; [done | done | done | lia | lia].
  - split_and!; [done | simpl; lia | done | done |].
    exists entry. split; [done |]. exists oldRuns, oldRuns. rewrite Hex.
    split_and!; [done | by rewrite withRuns_same | by apply runUpdated_refl | done].
Qed.

(** ** An update that matches nothing *)

(** The premise of C3 in the words of the claim: no result of a run of
    the update has the external id of the update. *)
Lemma no_equal_externalId_no_match ur ures (rs : list CheckRun) :
  (∀ run result, run ∈ rs → runMatches ur run = true → result ∈ resultsOf run →
     result_externalId result ≠ api_externalId ures) →
  existsb (runHasMatch ur ures) rs = false.
Proof.
  intros Hno. apply not_true_is_false. intros Hex.
  apply existsb_exists in Hex as (run & Hin & Hrun).
  unfold runHasMatch in Hrun. apply andb_prop in Hrun as [Hm Hres].
  apply existsb_exists in Hres as (result & Hin' & Hres).
  unfold resultMatches in Hres. apply andb_prop in Hres as [_ Heq].
  apply bool_decide_eq_true_1 in Heq.
  apply (Hno run result); [by apply list_elem_of_In | done | by apply list_elem_of_In | done].
Qed.

(** C3.  In a context where the plugin has an entry with runs, when no
    run of the update (same change, patchset, attempt and check name)
    has a result that matches the update on its external id,
    [updateStateUpdateResult] returns and has only allocated: the
    current snapshot is the object it was, with the same map, entry and
    array of runs, and nothing was published. *)
Theorem updateStateUpdateResult_no_match (name : string) (updatedRun : CheckRunApi)
    (updatedResult : CheckResultApi) (patchset : ChecksPatchset) (m : ChecksModel)
    (entry : ChecksProviderState) (oldRuns : Arr CheckRun) :
  entryOf patchset name (currentState m) = Some entry →
  runs (val entry) = Some oldRuns →
  existsb (runHasMatch updatedRun updatedResult) (val oldRuns) = false →
  let m' := exec (updateStateUpdateResult name updatedRun updatedResult patchset) m in
  returns (updateStateUpdateResult name updatedRun updatedResult patchset) m
  ∧ currentState m' = currentState m
  ∧ sameRef (currentState m') (currentState m)
  ∧ entryOf patchset name (currentState m') = Some entry
  ∧ emitted m' = emitted m
  ∧ m' = set_heapTop (λ _, heapTop m') m.
Proof.
  intros Hentry Hruns Hno m'. subst m'. unfold returns, exec.
  destruct (updateStateUpdateResult_eq name updatedRun updatedResult patchset m entry oldRuns
              Hentry Hruns) as (newRuns & top & Hle & Hall & ->).
  rewrite Hno. simpl. split_and!; try done. by exists tt.
Qed.

(** ** A model with results *)

(** Scenario A: attempt 2 is the latest attempt, attempt 1 is not, and
    both runs list the attempts 1 and 2 in this order. *)
Example modelWithRuns_attempts :
  (λ e : ChecksProviderState,
     (λ r : CheckRun, (run_attempt r, isLatestAttempt (val r), run_isSingleAttempt (val r),
                       attempt <$> attemptDetails (val r), internalRunId (val r)))
       <$> from_option val [] (runs (val e)))
    <$> entryOf LATEST "ci" (currentState modelWithRuns)
  = Some [ (Some 1, false, false, [Some 1; Some 2], "build-42-5-1");
           (Some 2, true, false, [Some 1; Some 2], "build-42-5-2") ].
Proof. vm_compute. reflexivity. Qed.

(** An update of the check "build", attempt 1, with an external id that
    no result has. *)
Lemma updateStateUpdateResult_no_match_witness :
  let update := mkCheckResultApi (Some "lint-2") ERROR "unused import" None [] in
  let m' := exec (updateStateUpdateResult "ci" runBuild1 update LATEST) modelWithRuns in
  currentState m' = currentState modelWithRuns ∧ emitted m' = emitted modelWithRuns.
Proof.
  intros update m'.
  edestruct (updateStateUpdateResult_no_match "ci" runBuild1 update LATEST modelWithRuns)
    as (_ & H1 & _ & _ & H2 & _).
  - vm_compute. reflexivity.
  - vm_compute. reflexivity.
  - vm_compute. reflexivity.
  - by split.
Defined.

(** ** An update that matches *)

(** C6 as it is stated fails, in two ways.  A result is replaced only
    when its external id is truthy: the run of "build", attempt 1, is a
    run of the update and has a result whose external id, the empty
    string, is the one of the update; [updateResult] returns and the
    snapshot is the one of before, with the old result in it.  And the
    context of the latest patchset comes first: when the plugin has no
    entry there, [updateResult] throws before it looks at the selected
    patchset, whose matching result stays as it was. *)
Lemma updateResult_empty_externalId_counterexample :
  (let update := mkCheckResultApi (Some "") ERROR "broken" None [] in
   let m' := exec (updateResult "ci" runBuild1 update) modelWithRuns in
   (∃ entry oldRuns run result,
       entryOf LATEST "ci" (currentState modelWithRuns) = Some entry
       ∧ runs (val entry) = Some oldRuns
       ∧ val oldRuns !! 0%nat = Some run
       ∧ runMatches runBuild1 run = true
       ∧ resultsOf run !! 1%nat = Some result
       ∧ result_externalId result = api_externalId update
       ∧ api_summary (result_api (val result)) = "flaky")
   ∧ returns (updateResult "ci" runBuild1 update) modelWithRuns
   ∧ currentState m' = currentState modelWithRuns
   ∧ emitted m' = emitted modelWithRuns)
  ∧
  (let update := mkCheckResultApi (Some "lint-1") ERROR "line far too long" None [] in
   let m' := exec (updateResult "ci" runBuild1 update) modelSelectedOnly in
   (∃ entry oldRuns run result,
       entryOf SELECTED "ci" (currentState modelSelectedOnly) = Some entry
       ∧ runs (val entry) = Some oldRuns
       ∧ val oldRuns !! 0%nat = Some run
       ∧ runMatches runBuild1 run = true
       ∧ resultsOf run !! 0%nat = Some result
       ∧ resultMatches update result = true)
   ∧ throws (updateResult "ci" runBuild1 update) modelSelectedOnly
   ∧ currentState m' = currentState modelSelectedOnly).
Proof.
  split; intros update m'.
  - split; [| split_and!; [by eexists | vm_compute; reflexivity ..]].
    eexists _, _, _, _. split_and!; vm_compute; reflexivity.
  - split; [| split; [by eexists | vm_compute; reflexivity]].
    eexists _, _, _, _. split_and!; vm_compute; reflexivity.
Qed.

(** C6, amended.  When the plugin has an entry with runs in both
    contexts, [updateResult] returns, and in each context: the entry of
    the plugin differs from the one before by its array of runs at most;
    a run of the update (same change, patchset, attempt and check name)
    that has a result with the truthy external id of the update is
    replaced by a new object, which differs from the old run by its
    array of results only; in that array a result with this external id
    is replaced by a new object with the properties of the update and
    the internal id of the old result; every other run and every other
    result is the object it was.  The entries of the other plugins are
    the ones of before. *)
Theorem updateResult_replaces (name : string) (updatedRun : CheckRunApi)
    (updatedResult : CheckResultApi) (m : ChecksModel) :
  (∀ patchset, ∃ entry oldRuns,
      entryOf patchset name (currentState m) = Some entry ∧ runs (val entry) = Some oldRuns) →
  let m' := exec (updateResult name updatedRun updatedResult) m in
  returns (updateResult name updatedRun updatedResult) m
  ∧ ∀ patchset,
      (∃ old new,
          entryOf patchset name (currentState m) = Some old
          ∧ entryOf patchset name (currentState m') = Some new
          ∧ entryUpdated (heapTop m) updatedRun updatedResult old new)
      ∧ (∀ name', name ≠ name' →
           entryOf patchset name' (currentState m')
           = entryOf patchset name' (currentState m)).
Proof.
  intros Hreg m'. subst m'.
  destruct (Hreg LATEST) as (eL & rL & HeL & HrL).
  destruct (Hreg SELECTED) as (eS & rS & HeS & HrS).
  pose proof (updateStateUpdateResult_context name updatedRun updatedResult LATEST m eL rL
                HeL HrL) as (Hret1 & Hle1 & Hother1 & Hne1 & new1 & Hnew1 & Hupd1).
  set (m1 := exec (updateStateUpdateResult name updatedRun updatedResult LATEST) m) in *.
  assert (Hsel1 : ∀ name', entryOf SELECTED name' (currentState m1)
                          = entryOf SELECTED name' (currentState m)).
  { intros name'. unfold entryOf.
    change SELECTED with (otherPatchset LATEST). by rewrite Hother1. }
  assert (HeS1 : entryOf SELECTED name (currentState m1) = Some eS)
    by (by rewrite Hsel1).
  pose proof (updateStateUpdateResult_context name updatedRun updatedResult SELECTED m1 eS rS
                HeS1 HrS) as (Hret2 & Hle2 & Hother2 & Hne2 & new2 & Hnew2 & Hupd2).
  set (m2 := exec (updateStateUpdateResult name updatedRun updatedResult SELECTED) m1) in *.
  assert (Hlat2 : ∀ name', entryOf LATEST name' (currentState m2)
                          = entryOf LATEST name' (currentState m1)).
  { intros name'. unfold entryOf.
    change LATEST with (otherPatchset SELECTED). by rewrite Hother2. }
  assert (Hexec : updateResult name updatedRun updatedResult m = (Normal tt, m2)).
  { unfold updateResult, mbind, M_bind. subst m2 m1. unfold exec in *.
    destruct (updateStateUpdateResult name updatedRun updatedResult LATEST m)
      as [c1 m1'] eqn:E1. simpl in Hret1, Hret2. subst c1. simpl.
    destruct (updateStateUpdateResult name updatedRun updatedResult SELECTED m1')
      as [c2 m2'] eqn:E2. simpl in Hret2. by subst c2. }
  unfold returns, exec. rewrite Hexec. simpl. split; [by exists tt |].
  intros [|]; split.
  - exists eL, new1. split_and!; [done | by rewrite Hlat2 | done].
  - intros name' Hne. rewrite Hlat2. by apply Hne1.
  - exists eS, new2. split_and!; [done | done |].
    eapply entryUpdated_mono; [exact Hle1 | exact Hupd2].
  - intros name' Hne. rewrite Hne2 by done. apply Hsel1.
Qed.

(** The result "lint-1" of the check "build", attempt 1, is updated: the
    run of attempt 2 and the result without id stay the objects they
    were. *)
Lemma updateResult_replaces_witness :
  let update := mkCheckResultApi (Some "lint-1") ERROR "line far too long" None [] in
  let m' := exec (updateResult "ci" runBuild1 update) modelWithRuns in
  ∃ old new,
    entryOf LATEST "ci" (currentState modelWithRuns) = Some old
    ∧ entryOf LATEST "ci" (currentState m') = Some new
    ∧ entryUpdated (heapTop modelWithRuns) runBuild1 update old new.
Proof.
  intros update m'.
  apply (updateResult_replaces "ci" runBuild1 update modelWithRuns).
  intros [|]; eexists _, _; split; vm_compute; reflexivity.
Defined.

Example updateResult_replaces_example :
  let update := mkCheckResultApi (Some "lint-1") ERROR "line far too long" None [] in
  let before := entryOf LATEST "ci" (currentState modelWithRuns) in
  let after := entryOf LATEST "ci" (currentState (exec (updateResult "ci" runBuild1 update)
                                                     modelWithRuns)) in
  let shape (e : option ChecksProviderState) :=
    (λ r : CheckRun, (addr r, (λ x : CheckResult,
        (addr x, api_summary (result_api (val x)), internalResultId (val x)))
        <$> resultsOf r))
    <$> from_option val [] (e ≫= λ e, runs (val e)) in
  shape before
  = [ (16%nat, [(13%nat, "line too long", "build-42-5-1-0"); (14%nat, "flaky", "build-42-5-1-1")]);
      (18%nat, []) ]
  ∧ shape after
  = [ (25%nat, [(23%nat, "line far too long", "build-42-5-1-0"); (14%nat, "flaky", "build-42-5-1-1")]);
      (18%nat, []) ].
Proof. vm_compute. split; reflexivity. Qed.

(** ** The data of a snapshot *)

Lemma mapM_sameOutcome {A B} (d : B → B) (f : nat → A → M B) l :
  (∀ i x m1 m2, sameOutcome d (f i x m1).1 (f i x m2).1) →
  ∀ i m1 m2, sameOutcome (fmap d) (mapM f i l m1).1 (mapM f i l m2).1.
Proof.
  intros Hf. induction l as [|x l IH]; intros i m1 m2; simpl; [done |].
  unfold mbind, M_bind. specialize (Hf i x m1 m2).
  destruct (f i x m1) as [[y1|e1] m1'], (f i x m2) as [[y2|e2] m2']; simpl in *; try done.
  specialize (IH (S i) m1' m2').
  destruct (mapM f (S i) l m1') as [[ys1|e1] m1''], (mapM f (S i) l m2') as [[ys2|e2] m2''];
    simpl in *; try done.
  change (d y1 :: (d <$> ys1) = d y2 :: (d <$> ys2)). congruence.
Qed.

Lemma dataOfEntry_lookup patchset name s :
  entryOf patchset name (dataOfState s) = dataOfEntry <$> entryOf patchset name s.
Proof. unfold entryOf. destruct patchset; simpl; apply lookup_fmap. Qed.

Lemma dataOfState_published a b a' b' patchset name e e' cur :
  dataOfEntry e' = dataOfEntry e →
  dataOfState (publishedState a' b' patchset name e' (publishedState a b patchset name e cur))
  = dataOfState (publishedState a b patchset name e cur).
Proof.
  intros He. unfold dataOfState, dataOfPluginState, publishedState.
  destruct patchset; simpl; rewrite insert_insert_eq, !fmap_insert, He; reflexivity.
Qed.

(** ** Setting the results of a provider *)

Lemma allocOnly_setResultsCallback name am run : allocOnly (setResultsCallback name am run).
Proof.
  unfold setResultsCallback.
  apply allocOnly_bind; [apply allocOnly_assertIsDefined |]. intros info.
  apply allocOnly_bind; [apply allocOnly_mapM; intros; apply allocOnly_new |]. intros rs.
  apply allocOnly_bind; [apply allocOnly_new |]. intros arr. apply allocOnly_new.
Qed.

(** The run that the callback builds has the same data wherever it is
    allocated. *)
Lemma setResultsCallback_sameOutcome name am run m1 m2 :
  sameOutcome dataOfRun (setResultsCallback name am run m1).1
    (setResultsCallback name am run m2).1.
Proof.
  unfold setResultsCallback, mbind, M_bind.
  destruct (am !! api_checkName run) as [info|]; simpl; [| done].
  pose proof (mapM_sameOutcome dataOfResult
    (λ i result, new (mkCheckResultF result (runIdOf run +:+ "-" +:+ pretty i)))
    (default [] (api_results run)) ltac:(done) 0%nat m1 m2) as Hrs.
  destruct (mapM _ 0%nat _ m1) as [[rs1|e1] m1'], (mapM _ 0%nat _ m2) as [[rs2|e2] m2'];
    simpl in *; try done.
  unfold dataOfRun. simpl. by rewrite Hrs.
Qed.

Section SetResults.

Variable createAttemptMap : list CheckRunApi → Completion (gmap string AttemptInfo).

(** [updateStateSetResults] throws when [createAttemptMap] throws or
    when a run has no entry in the attempt map, and then it has only
    allocated; else it publishes the entry with the new runs. *)
Lemma updateStateSetResults_eq name newRuns newActions newLinks patchset m :
  let old := spread (entryOf patchset name (currentState m)) in
  updateStateSetResults createAttemptMap name newRuns newActions newLinks patchset m
  = match createAttemptMap newRuns with
    | Throw e => (Throw e, m)
    | Normal am =>
        let mapped :=
          mapM (λ _, setResultsCallback name (sortInfo <$> am)) 0 newRuns
            (set_heapTop (λ _, S (S (heapTop m))) m) in
        match mapped.1 with
        | Throw e => (Throw e, set_heapTop (λ _, heapTop mapped.2) m)
        | Normal rs =>
            (Normal tt,
             publish patchset name
               (mkObj (S (heapTop mapped.2))
                  (resultsEntry old (mkObj (heapTop mapped.2) rs) newActions newLinks))
               (S (S (heapTop mapped.2))) m)
        end
    end.
Proof.
  intros old. subst old. unfold updateStateSetResults, liftCompletion, mbind, M_bind.
  destruct (createAttemptMap newRuns) as [am|e]; [| done].
  pose proof (allocOnly_mapM (λ _ : nat, setResultsCallback name (sortInfo <$> am)) newRuns
    (λ _ run, allocOnly_setResultsCallback name _ run) 0%nat
    (set_heapTop (λ _, S (S (heapTop m))) m)) as (top & Hle & Htop).
  unfold entryOf, currentState.
  destruct patchset; simpl in *;
    destruct (mapM _ 0%nat newRuns _) as [[rs|e] m'] eqn:Hmap; simpl in *; by subst m'.
Qed.

(** C7.  Two consecutive calls of [updateStateSetResults] with the same
    arguments have the same outcome, and the snapshot that is current
    after the second call has the same data as the one that is current
    after the first: in particular the entries of the plugin agree on
    [loading], [firstTimeLoad], the two markers, the runs with their
    derived properties and results, the actions and the links. *)
Theorem updateStateSetResults_idempotent (name : string) (newRuns : list CheckRunApi)
    (newActions : list Action) (newLinks : list Link) (patchset : ChecksPatchset)
    (m : ChecksModel) :
  let setResults :=
    updateStateSetResults createAttemptMap name newRuns newActions newLinks patchset in
  let m1 := exec setResults m in
  let m2 := exec setResults m1 in
  (setResults m1).1 = (setResults m).1
  ∧ dataOfState (currentState m2) = dataOfState (currentState m1)
  ∧ dataOfEntry <$> entryOf patchset name (currentState m2)
    = dataOfEntry <$> entryOf patchset name (currentState m1).
Proof.
  intros setResults m1 m2.
  assert (H : (setResults m1).1 = (setResults m).1
              ∧ dataOfState (currentState m2) = dataOfState (currentState m1)).
  { subst m2 m1 setResults. unfold exec.
    rewrite (updateStateSetResults_eq name newRuns newActions newLinks patchset m).
    destruct (createAttemptMap newRuns) as [am|e] eqn:Ham; simpl.
    2: { rewrite updateStateSetResults_eq, Ham. done. }
    set (f := λ _ : nat, setResultsCallback name (sortInfo <$> am)).
    destruct (mapM f 0%nat newRuns (set_heapTop (λ _, S (S (heapTop m))) m))
      as [[rs|e] m'] eqn:Hmap; simpl.
    - rewrite updateStateSetResults_eq, Ham. simpl. fold f.
      match goal with |- context [mapM f 0%nat newRuns ?m0] =>
        pose proof (mapM_sameOutcome dataOfRun f newRuns
          (λ _ run, setResultsCallback_sameOutcome name _ run) 0%nat m0
          (set_heapTop (λ _, S (S (heapTop m))) m)) as Hsame;
        destruct (mapM f 0%nat newRuns m0) as [[rs'|e'] m''] eqn:Hmap'
      end; rewrite Hmap in Hsame; simpl in Hsame; [| done].
      simpl. split; [done |].
      rewrite !currentState_publish. apply dataOfState_published.
      rewrite entryOf_published. unfold dataOfEntry, resultsEntry. simpl. by rewrite Hsame.
    - rewrite updateStateSetResults_eq, Ham. simpl. fold f.
      match goal with |- context [mapM f 0%nat newRuns ?m0] =>
        pose proof (mapM_sameOutcome dataOfRun f newRuns
          (λ _ run, setResultsCallback_sameOutcome name _ run) 0%nat m0
          (set_heapTop (λ _, S (S (heapTop m))) m)) as Hsame;
        destruct (mapM f 0%nat newRuns m0) as [[rs'|e'] m''] eqn:Hmap'
      end; rewrite Hmap in Hsame; simpl in Hsame; [done |].
      simpl. by subst e'. }
  destruct H as [H1 H2]. split_and!; [done | done |].
  by rewrite <- !dataOfEntry_lookup, H2.
Qed.

End SetResults.

(** ** The two markers of a provider state *)

Lemma stateExclusive_entry patchset name s e :
  stateExclusive s → entryOf patchset name s = Some e → markersExclusive e.
Proof.
  intros [HL HS] He. unfold entryOf in He.
  destruct patchset; simpl in He; [exact (HL _ _ He) | exact (HS _ _ He)].
Qed.

Lemma markersExclusive_spread patchset name s :
  stateExclusive s →
  ¬ (is_Some (errorMessage (spread (entryOf patchset name s)))
     ∧ is_Some (loginCallback (spread (entryOf patchset name s)))).
Proof.
  intros Hs. destruct (entryOf patchset name s) as [e|] eqn:He; simpl.
  - exact (stateExclusive_entry _ _ _ _ Hs He).
  - intros [[? [=]] _].
Qed.

Lemma stateExclusive_published a b patchset name e cur :
  stateExclusive cur → markersExclusive e →
  stateExclusive (publishedState a b patchset name e cur).
Proof.
  intros [HL HS] He. unfold stateExclusive, publishedState.
  destruct patchset; simpl; split; try done; by apply map_Forall_insert_2.
Qed.

Lemma modelExclusive_publish patchset name e top m :
  modelExclusive m → markersExclusive e → modelExclusive (publish patchset name e top m).
Proof.
  intros [Hcur Hem] He.
  assert (Hnew : stateExclusive (currentState (publish patchset name e top m))).
  { rewrite currentState_publish. by apply stateExclusive_published. }
  split; [done |]. unfold emitted, publish. simpl.
  apply Forall_app. split; [done |]. by constructor.
Qed.

(** When the plugin has no entry in the context, or an entry without
    an array of runs, [updateStateUpdateResult] throws a [TypeError] and
    has only allocated. *)
Lemma updateStateUpdateResult_throws name ur ures patchset m :
  (entryOf patchset name (currentState m) ≫= λ e, runs (val e)) = None →
  ∃ msg, updateStateUpdateResult name ur ures patchset m
         = (Throw (TypeError msg), set_heapTop (λ _, S (S (heapTop m))) m).
Proof.
  unfold entryOf, currentState, updateStateUpdateResult, mbind, M_bind.
  destruct patchset; simpl;
    (destruct (_ !! name) as [e|]; simpl; [intros ->; simpl |]; by eexists).
Qed.

Lemma modelExclusive_updateStateUpdateResult name ur ures patchset m :
  modelExclusive m → modelExclusive (exec (updateStateUpdateResult name ur ures patchset) m).
Proof.
  intros Hm. unfold exec.
  destruct (entryOf patchset name (currentState m)) as [entry|] eqn:He.
  - destruct (runs (val entry)) as [oldRuns|] eqn:Hr.
    + destruct (updateStateUpdateResult_eq name ur ures patchset m entry oldRuns He Hr)
        as (newRuns & top & _ & _ & ->). simpl.
      destruct (existsb _ _); [| done].
      apply modelExclusive_publish; [done |].
      exact (stateExclusive_entry _ _ _ _ (proj1 Hm) He).
    + destruct (updateStateUpdateResult_throws name ur ures patchset m) as [msg ->];
        [by rewrite He | done].
  - destruct (updateStateUpdateResult_throws name ur ures patchset m) as [msg ->];
      [by rewrite He | done].
Qed.

Lemma notBoth_None_l {A B} (b : option B) : ¬ (is_Some (@None A) ∧ is_Some b).
Proof. intros [[? [=]] _]. Qed.

Lemma notBoth_None_r {A B} (a : option A) : ¬ (is_Some a ∧ is_Some (@None B)).
Proof. intros [_ [? [=]]]. Qed.

Section Invariant.

Variable createAttemptMap : list CheckRunApi → Completion (gmap string AttemptInfo).

Lemma modelExclusive_updateStateSetResults name newRuns newActions newLinks patchset m :
  modelExclusive m →
  modelExclusive
    (exec (updateStateSetResults createAttemptMap name newRuns newActions newLinks patchset) m).
Proof.
  intros Hm. unfold exec. rewrite updateStateSetResults_eq.
  destruct (createAttemptMap newRuns) as [am|e]; [| done]. simpl.
  destruct (mapM _ _ _ _).1; [| done]. simpl.
  apply modelExclusive_publish; [done |]. apply notBoth_None_l.
Qed.

Lemma modelExclusive_runOp op m :
  modelExclusive m → modelExclusive (exec (runOp createAttemptMap op) m).
Proof.
  intros Hm. destruct op as [name patchset | name patchset | name message patchset
    | name callback patchset | name newRuns newActions newLinks patchset
    | name run result patchset]; simpl.
  - unfold exec. rewrite updateStateSetProvider_eq.
    apply modelExclusive_publish; [done |]. apply notBoth_None_l.
  - unfold exec. rewrite updateStateSetLoading_eq.
    apply modelExclusive_publish; [done |].
    exact (markersExclusive_spread patchset name _ (proj1 Hm)).
  - unfold exec. rewrite updateStateSetError_eq.
    apply modelExclusive_publish; [done |]. apply notBoth_None_r.
  - unfold exec. rewrite updateStateSetNotLoggedIn_eq.
    apply modelExclusive_publish; [done |]. apply notBoth_None_l.
  - by apply modelExclusive_updateStateSetResults.
  - by apply modelExclusive_updateStateUpdateResult.
Qed.

Lemma modelExclusive_runOps ops m :
  modelExclusive m → modelExclusive (runOps createAttemptMap ops m).
Proof.
  revert m. induction ops as [|op ops IH]; intros m Hm; [done |].
  simpl. apply IH. by apply modelExclusive_runOp.
Qed.

Lemma modelExclusive_initial : modelExclusive initialModel.
Proof.
  split; [| constructor]. split; simpl; apply map_Forall_empty.
Qed.

(** C1.  After any sequence of operations of the state store on a new
    model, no provider state of the current snapshot, in either
    context, has both [errorMessage] and [loginCallback] defined, and
    the same holds of every snapshot that was published.  Right after
    [updateStateSetError] the entry of the plugin has the message and no
    [loginCallback]; right after [updateStateSetNotLoggedIn] it has the
    callback and no [errorMessage]. *)
Theorem markers_never_both (ops : list StoreOp) :
  let m := runOps createAttemptMap ops initialModel in
  stateExclusive (currentState m)
  ∧ Forall stateExclusive (emitted m)
  ∧ (∀ name message patchset, ∃ e,
       entryOf patchset name (currentState (exec (updateStateSetError name message patchset) m))
       = Some e
       ∧ errorMessage (val e) = Some message ∧ loginCallback (val e) = None)
  ∧ (∀ name callback patchset, ∃ e,
       entryOf patchset name
         (currentState (exec (updateStateSetNotLoggedIn name callback patchset) m))
       = Some e
       ∧ loginCallback (val e) = Some callback ∧ errorMessage (val e) = None).
Proof.
  intros m.
  destruct (modelExclusive_runOps ops initialModel modelExclusive_initial) as [Hcur Hem].
  split_and!; [done | done | |].
  - intros name message patchset. unfold exec. rewrite updateStateSetError_eq. simpl.
    eexists. rewrite currentState_publish, entryOf_published. by split_and!.
  - intros name callback patchset. unfold exec. rewrite updateStateSetNotLoggedIn_eq. simpl.
    eexists. rewrite currentState_publish, entryOf_published. by split_and!.
Qed.

End Invariant.

(** ** Which operations can throw *)

Lemma mapM_new_returns {A B} (g : nat → A → B) l i m :
  ∃ rs, (mapM (λ i x, new (g i x)) i l m).1 = Normal rs.
Proof.
  revert i m. induction l as [|x l IH]; intros i m; simpl; [by eexists |].
  unfold mbind, M_bind. simpl.
  destruct (IH (S i) (set_heapTop S m)) as [rs Hrs].
  destruct (mapM _ (S i) l _) as [c m']. simpl in Hrs. subst c. by eexists.
Qed.

Lemma setResultsCallback_returns name am run m :
  is_Some (am !! api_checkName run) → ∃ r, (setResultsCallback name am run m).1 = Normal r.
Proof.
  intros [info Hinfo]. unfold setResultsCallback, mbind, M_bind. rewrite Hinfo. simpl.
  destruct (mapM_new_returns
    (λ i result, mkCheckResultF result (runIdOf run +:+ "-" +:+ pretty i))
    (default [] (api_results run)) 0%nat m) as [rs Hrs].
  destruct (mapM _ 0%nat _ m) as [c m']. simpl in Hrs. subst c. by eexists.
Qed.

Lemma mapM_setResultsCallback_returns name am l i m :
  (∀ run, run ∈ l → is_Some (am !! api_checkName run)) →
  ∃ rs, (mapM (λ _, setResultsCallback name am) i l m).1 = Normal rs.
Proof.
  revert i m. induction l as [|run l IH]; intros i m Hall; simpl; [by eexists |].
  unfold mbind, M_bind.
  destruct (setResultsCallback_returns name am run m) as [r Hr];
    [apply Hall; by left |].
  destruct (setResultsCallback name am run m) as [c m']. simpl in Hr. subst c.
  destruct (IH (S i) m') as [rs Hrs]; [intros ??; apply Hall; by right |].
  destruct (mapM _ (S i) l m') as [c m'']. simpl in Hrs. subst c. by eexists.
Qed.

(** [updateStateSetResults] returns when [createAttemptMap] returns a
    map that has an entry for the check name of every run. *)
Lemma updateStateSetResults_returns createAttemptMap name newRuns newActions newLinks
    patchset m am :
  createAttemptMap newRuns = Normal am →
  (∀ run, run ∈ newRuns → is_Some (am !! api_checkName run)) →
  returns (updateStateSetResults createAttemptMap name newRuns newActions newLinks patchset) m.
Proof.
  intros Ham Hcover. unfold returns. rewrite updateStateSetResults_eq, Ham. simpl.
  destruct (mapM_setResultsCallback_returns name (sortInfo <$> am) newRuns 0%nat
    (set_heapTop (λ _, S (S (heapTop m))) m)) as [rs ->].
  - intros run Hin. rewrite lookup_fmap. destruct (Hcover run Hin) as [info ->]. by eexists.
  - by eexists.
Qed.

(** The aggregator of the specification has an entry for every run. *)
Lemma aggregate_covers iconOf runs run :
  run ∈ runs → is_Some (aggregate iconOf runs !! api_checkName run).
Proof.
  intros Hin. unfold aggregate.
  apply not_eq_None_Some. intros Hnone.
  apply not_elem_of_list_to_map_2 in Hnone. apply Hnone.
  rewrite <- list_fmap_compose. apply list_elem_of_fmap. by exists run.
Qed.

(** C5 as it is stated fails: for a plugin name that has no entry in
    the context, [updateStateUpdateResult] reads [runs] of [undefined]
    and throws a [TypeError]. *)
Lemma updateStateUpdateResult_unknown_plugin_counterexample :
  entryOf LATEST "lint" (currentState modelWithRuns) = None
  ∧ throws (updateStateUpdateResult "lint" runBuild1 resultLint LATEST) modelWithRuns
  ∧ (updateStateUpdateResult "lint" runBuild1 resultLint LATEST modelWithRuns).1
    = Throw (TypeError "Cannot read properties of undefined (reading 'runs')").
Proof. split_and!; [vm_compute; reflexivity | by eexists | vm_compute; reflexivity]. Qed.

(** C5, amended.  [updateStateSetLoading], [updateStateSetError] and
    [updateStateSetNotLoggedIn] return for every plugin name, context
    and model, and so does [updateStateSetResults] with the attempt
    aggregator of the specification; for a plugin name without entry in
    the context the entry they publish is built from the spread of
    [undefined]: after [updateStateSetLoading] it has [loading] and
    nothing else.  [updateStateUpdateResult] returns when the plugin has
    an entry with an array of runs in the context. *)
Theorem store_operations_return :
  (∀ name patchset m, returns (updateStateSetLoading name patchset) m)
  ∧ (∀ name message patchset m, returns (updateStateSetError name message patchset) m)
  ∧ (∀ name callback patchset m,
       returns (updateStateSetNotLoggedIn name callback patchset) m)
  ∧ (∀ iconOf name newRuns newActions newLinks patchset m,
       returns (updateStateSetResults (λ runs, Normal (aggregate iconOf runs))
                  name newRuns newActions newLinks patchset) m)
  ∧ (∀ name patchset m,
       entryOf patchset name (currentState m) = None →
       ∃ e, entryOf patchset name (currentState (exec (updateStateSetLoading name patchset) m))
            = Some e
            ∧ val e = mkProviderState None (Some true) None None None None None None)
  ∧ (∀ name updatedRun updatedResult patchset m entry oldRuns,
       entryOf patchset name (currentState m) = Some entry →
       runs (val entry) = Some oldRuns →
       returns (updateStateUpdateResult name updatedRun updatedResult patchset) m).
Proof.
  split_and!.
  - intros. unfold returns. rewrite updateStateSetLoading_eq. by eexists.
  - intros. unfold returns. rewrite updateStateSetError_eq. by eexists.
  - intros. unfold returns. rewrite updateStateSetNotLoggedIn_eq. by eexists.
  - intros. eapply updateStateSetResults_returns; [done |].
    intros run Hin. by apply aggregate_covers.
  - intros name patchset m Hnone. unfold exec. rewrite updateStateSetLoading_eq. simpl.
    eexists. rewrite currentState_publish, entryOf_published. split; [done |].
    simpl. by rewrite Hnone.
  - intros name ur ures patchset m entry oldRuns He Hr. unfold returns.
    destruct (updateStateUpdateResult_eq name ur ures patchset m entry oldRuns He Hr)
      as (newRuns & top & _ & _ & ->). by eexists.
Qed.

(** ** A registered plugin has runs *)

Lemma hasRuns_publish patchset name patchset' name' e top m :
  hasRuns patchset name (currentState m) →
  (patchset' = patchset → name' = name → is_Some (runs (val e))) →
  hasRuns patchset name (currentState (publish patchset' name' e top m)).
Proof.
  intros (e0 & r0 & He0 & Hr0) Hnew. rewrite currentState_publish.
  destruct (decide (patchset' = patchset)) as [-> | Hp].
  - destruct (decide (name' = name)) as [-> | Hn].
    + destruct (Hnew eq_refl eq_refl) as [r Hr]. exists e, r.
      by rewrite entryOf_published.
    + exists e0, r0. by rewrite entryOf_published_ne.
  - exists e0, r0. split; [| done]. unfold entryOf.
    replace patchset with (otherPatchset patchset') by (by destruct patchset, patchset').
    rewrite pluginStateOf_published_other.
    replace (otherPatchset patchset') with patchset by (by destruct patchset, patchset').
    exact He0.
Qed.

Lemma hasRuns_new_entry patchset name e top m :
  is_Some (runs (val e)) → hasRuns patchset name (currentState (publish patchset name e top m)).
Proof.
  intros [r Hr]. exists e, r. by rewrite currentState_publish, entryOf_published.
Qed.

Lemma hasRuns_spread patchset name patchset' name' s :
  hasRuns patchset name s → patchset' = patchset → name' = name →
  is_Some (runs (spread (entryOf patchset' name' s))).
Proof. intros (e & r & He & Hr) -> ->. rewrite He. by exists r. Qed.

Section Registered.

Variable createAttemptMap : list CheckRunApi → Completion (gmap string AttemptInfo).

Lemma hasRuns_runOp patchset name op m :
  hasRuns patchset name (currentState m) →
  hasRuns patchset name (currentState (exec (runOp createAttemptMap op) m)).
Proof.
  intros Hm. destruct op as [name' patchset' | name' patchset' | name' message patchset'
    | name' callback patchset' | name' newRuns newActions newLinks patchset'
    | name' run result patchset']; simpl; unfold exec.
  - rewrite updateStateSetProvider_eq. apply hasRuns_publish; [done |]. by eexists.
  - rewrite updateStateSetLoading_eq. apply hasRuns_publish; [done |].
    simpl. by apply hasRuns_spread.
  - rewrite updateStateSetError_eq. apply hasRuns_publish; [done |]. by eexists.
  - rewrite updateStateSetNotLoggedIn_eq. apply hasRuns_publish; [done |]. by eexists.
  - rewrite updateStateSetResults_eq.
    destruct (createAttemptMap newRuns) as [am|e]; [| done]. simpl.
    destruct (mapM _ _ _ _).1; [| done]. simpl.
    apply hasRuns_publish; [done |]. by eexists.
  - destruct (entryOf patchset' name' (currentState m) ≫= λ e, runs (val e))
      as [oldRuns|] eqn:Hold.
    + destruct (entryOf patchset' name' (currentState m)) as [entry|] eqn:He; [| done].
      simpl in Hold.
      destruct (updateStateUpdateResult_eq name' run result patchset' m entry oldRuns He Hold)
        as (newRuns & top & _ & _ & ->). simpl.
      destruct (existsb _ _); [| done].
      apply hasRuns_publish; [done |]. by eexists.
    + by destruct (updateStateUpdateResult_throws name' run result patchset' m Hold)
        as [msg ->].
Qed.

Lemma hasRuns_runOps patchset name ops m :
  hasRuns patchset name (currentState m) →
  hasRuns patchset name (currentState (runOps createAttemptMap ops m)).
Proof.
  revert m. induction ops as [|op ops IH]; intros m Hm; [done |].
  simpl. apply IH. by apply hasRuns_runOp.
Qed.

(** Once a plugin has registered, and whatever the store operations
    that follow, it has an entry with an array of runs in both
    contexts: the premises of C3, C5 and C6 on the entry of the plugin
    hold of every registered plugin. *)
Lemma registered_hasRuns name provider config ops m patchset :
  providers m !! name = None →
  hasRuns patchset name
    (currentState (runOps createAttemptMap ops (exec (register name provider config) m))).
Proof.
  intros Hnew. apply hasRuns_runOps.
  unfold exec, register, gets, mbind, M_bind. simpl. rewrite Hnew. simpl.
  destruct patchset; eexists _, _;
    (split; [unfold entryOf; simpl; apply lookup_insert_eq | reflexivity]).
Qed.

End Registered.

(** * Properties of the rest of the model *)

(** ** What a store operation leaves alone *)

Lemma publish_frame patchset name e top m :
  let m' := publish patchset name e top m in
  pluginStateOf (otherPatchset patchset) (currentState m')
  = pluginStateOf (otherPatchset patchset) (currentState m)
  ∧ (∀ name', name ≠ name' →
       entryOf patchset name' (currentState m') = entryOf patchset name' (currentState m))
  ∧ patchsetNumberSelected (val (currentState m'))
    = patchsetNumberSelected (val (currentState m))
  ∧ emitted m' = emitted m ++ [currentState m']
  ∧ addr (currentState m') = heapTop m.
Proof.
  intros m'. subst m'. rewrite currentState_publish. split_and!.
  - apply pluginStateOf_published_other.
  - intros name' Hne. by apply entryOf_published_ne.
  - apply patchsetNumberSelected_published.
  - done.
  - by destruct patchset.
Qed.

Section StoreFrame.

Variable createAttemptMap : list CheckRunApi → Completion (gmap string AttemptInfo).

(** A store operation has only allocated, or it has published an entry
    for its plugin in its context. *)
Lemma runOp_outcome op m :
  ∃ top, (heapTop m ≤ top)%nat
    ∧ (exec (runOp createAttemptMap op) m = set_heapTop (λ _, top) m
       ∨ ∃ e, exec (runOp createAttemptMap op) m = publish (opPatchset op) (opName op) e top m).
Proof.
  destruct op as [name patchset | name patchset | name message patchset
    | name callback patchset | name newRuns newActions newLinks patchset
    | name run result patchset]; simpl; unfold exec.
  - rewrite updateStateSetProvider_eq. eexists. split; [| right; by eexists]. lia.
  - rewrite updateStateSetLoading_eq. eexists. split; [| right; by eexists]. lia.
  - rewrite updateStateSetError_eq. eexists. split; [| right; by eexists]. lia.
  - rewrite updateStateSetNotLoggedIn_eq. eexists. split; [| right; by eexists]. lia.
  - rewrite updateStateSetResults_eq.
    destruct (createAttemptMap newRuns) as [am|e].
    2: { exists (heapTop m). rewrite set_heapTop_same. by split; [| left]. }
    simpl.
    pose proof (allocOnly_mapM (λ _ : nat, setResultsCallback name (sortInfo <$> am)) newRuns
      (λ _ run, allocOnly_setResultsCallback name _ run) 0%nat
      (set_heapTop (λ _, S (S (heapTop m))) m)) as (top & Hle & Htop).
    simpl in Hle. rewrite Htop. simpl.
    destruct (mapM _ _ _ _).1; simpl.
    + eexists. split; [| right; by eexists]. lia.
    + exists top. split; [lia | by left].
  - destruct (entryOf patchset name (currentState m) ≫= λ e, runs (val e))
      as [oldRuns|] eqn:Hold.
    + destruct (entryOf patchset name (currentState m)) as [entry|] eqn:He; [| done].
      simpl in Hold.
      destruct (updateStateUpdateResult_eq name run result patchset m entry oldRuns He Hold)
        as (newRuns & top & Hle & _ & ->). simpl.
      destruct (existsb _ _).
      * eexists. split; [| right; by eexists]. lia.
      * eexists. split; [| by left]. lia.
    + destruct (updateStateUpdateResult_throws name run result patchset m Hold) as [msg ->].
      eexists. split; [| by left]. simpl. lia.
Qed.

(** X1.  A store operation for a plugin in a context leaves the map of
    the other context the object it was, the entries of the other
    plugins in its own context the objects they were, and the selected
    patchset number, the registry, the reload subjects, the
    subscriptions and the effects as they were.  It publishes nothing,
    and then the current snapshot is the one of before, or it publishes
    one snapshot, a new object. *)
Theorem runOp_frame (op : StoreOp) (m : ChecksModel) :
  let m' := exec (runOp createAttemptMap op) m in
  pluginStateOf (otherPatchset (opPatchset op)) (currentState m')
  = pluginStateOf (otherPatchset (opPatchset op)) (currentState m)
  ∧ (∀ name', opName op ≠ name' →
       entryOf (opPatchset op) name' (currentState m')
       = entryOf (opPatchset op) name' (currentState m))
  ∧ patchsetNumberSelected (val (currentState m'))
    = patchsetNumberSelected (val (currentState m))
  ∧ (emitted m' = emitted m ∧ currentState m' = currentState m
     ∨ emitted m' = emitted m ++ [currentState m'] ∧ addr (currentState m') = heapTop m)
  ∧ providers m' = providers m ∧ reloadSubjects m' = reloadSubjects m
  ∧ changeNum m' = changeNum m ∧ latestPatchNum m' = latestPatchNum m
  ∧ subscriptions m' = subscriptions m ∧ effects m' = effects m.
Proof.
  intros m'. subst m'.
  destruct (runOp_outcome op m) as (top & _ & [-> | [e ->]]).
  - split_and!; try done. by left.
  - destruct (publish_frame (opPatchset op) (opName op) e top m)
      as (H1 & H2 & H3 & H4 & H5).
    split_and!; try done. by right.
Qed.

(** X2.  No store operation removes an entry: a plugin that has an
    entry in a context still has one after any sequence of store
    operations. *)
Theorem runOps_keeps_entries (ops : list StoreOp) (m : ChecksModel)
    (patchset : ChecksPatchset) :
  dom (val (pluginStateOf patchset (currentState m)))
  ⊆@{gset string}
  dom (val (pluginStateOf patchset (currentState (runOps createAttemptMap ops m)))).
Proof.
  revert m. induction ops as [|op ops IH]; intros m; [done |].
  simpl. etrans; [| apply IH].
  destruct (runOp_outcome op m) as (top & _ & [-> | [e ->]]); [done |].
  rewrite currentState_publish. unfold publishedState.
  destruct patchset, (opPatchset op); simpl; try done;
    rewrite dom_insert_L; set_solver.
Qed.

End StoreFrame.

(** ** What the writers publish *)

(** X3.  [updateStateSetLoading] on a plugin that has an entry publishes
    an entry with [loading] true that agrees with the old one on every
    other property: the same array of runs, the same actions and links,
    the same markers and the same [firstTimeLoad]. *)
Theorem updateStateSetLoading_keeps_data (name : string) (patchset : ChecksPatchset)
    (m : ChecksModel) (old : ChecksProviderState) :
  entryOf patchset name (currentState m) = Some old →
  let m' := exec (updateStateSetLoading name patchset) m in
  ∃ new,
    entryOf patchset name (currentState m') = Some new
    ∧ loading (val new) = Some true
    ∧ pluginName (val new) = pluginName (val old)
    ∧ firstTimeLoad (val new) = firstTimeLoad (val old)
    ∧ errorMessage (val new) = errorMessage (val old)
    ∧ loginCallback (val new) = loginCallback (val old)
    ∧ runs (val new) = runs (val old)
    ∧ actions (val new) = actions (val old)
    ∧ links (val new) = links (val old).
Proof.
  intros Hold m'. subst m'. unfold exec. rewrite updateStateSetLoading_eq. simpl.
  eexists. rewrite currentState_publish, entryOf_published, Hold. by split_and!.
Qed.

(** The fetch for the latest patchset is started again while the runs
    of the first fetch are shown. *)
Lemma updateStateSetLoading_keeps_data_witness :
  let m' := exec (updateStateSetLoading "ci" LATEST) modelWithRuns in
  ∃ old new,
    entryOf LATEST "ci" (currentState modelWithRuns) = Some old
    ∧ entryOf LATEST "ci" (currentState m') = Some new
    ∧ loading (val new) = Some true
    ∧ runs (val new) = runs (val old).
Proof.
  intros m'.
  edestruct (updateStateSetLoading_keeps_data "ci" LATEST modelWithRuns)
    as (new & H1 & H2 & _ & _ & _ & _ & H3 & _).
  - vm_compute. reflexivity.
  - eexists _, new. split_and!; [vm_compute; reflexivity | exact H1 | exact H2 | exact H3].
Defined.

(** X4.  Whatever the entry of the plugin was, [updateStateSetNotLoggedIn]
    returns, and the entry it publishes has [loading] and
    [firstTimeLoad] false, the callback as [loginCallback], no
    [errorMessage], an empty array of runs and no actions; its [links]
    and its [pluginName] are the ones of the entry before. *)
Theorem updateStateSetNotLoggedIn_entry (name : string) (callback : LoginCallback)
    (patchset : ChecksPatchset) (m : ChecksModel) :
  let before := entryOf patchset name (currentState m) in
  let m' := exec (updateStateSetNotLoggedIn name callback patchset) m in
  returns (updateStateSetNotLoggedIn name callback patchset) m
  ∧ ∃ entry noRuns,
      entryOf patchset name (currentState m') = Some entry
      ∧ loading (val entry) = Some false
      ∧ firstTimeLoad (val entry) = Some false
      ∧ errorMessage (val entry) = None
      ∧ loginCallback (val entry) = Some callback
      ∧ runs (val entry) = Some noRuns ∧ val noRuns = []
      ∧ actions (val entry) = Some []
      ∧ links (val entry) = before ≫= (λ e, links (val e))
      ∧ pluginName (val entry) = before ≫= (λ e, pluginName (val e)).
Proof.
  intros before m'. subst m'. unfold returns, exec.
  rewrite updateStateSetNotLoggedIn_eq. simpl. split; [by exists tt |].
  eexists _, _. rewrite currentState_publish, entryOf_published.
  split_and!; try done; simpl; subst before; by destruct (entryOf _ _ _).
Qed.

(** ** The runs that [updateStateSetResults] builds *)

Lemma mapM_new_val {A B} (g : nat → A → B) l i m :
  ∃ out,
    mapM (λ i x, new (g i x)) i l m
    = (Normal out, set_heapTop (λ _, (length l + heapTop m)%nat) m)
    ∧ val <$> out = imap (λ j, g (i + j)%nat) l.
Proof.
  revert i m. induction l as [|x l IH]; intros i m; simpl.
  - exists []. by rewrite set_heapTop_same.
  - unfold mbind, M_bind. simpl.
    destruct (IH (S i) (set_heapTop S m)) as (out & -> & Hout). simpl.
    eexists. split.
    + f_equal. unfold set_heapTop. simpl. f_equal. lia.
    + rewrite fmap_cons, Hout. simpl. f_equal; [by rewrite Nat.add_0_r |].
      apply imap_ext. intros j y _. simpl. f_equal. lia.
Qed.

Lemma setResultsCallback_built name am run info m :
  am !! api_checkName run = Some info →
  ∃ built top,
    setResultsCallback name am run m = (Normal built, set_heapTop (λ _, top) m)
    ∧ runBuilt name am run built.
Proof.
  intros Hinfo. unfold setResultsCallback, mbind, M_bind. rewrite Hinfo. simpl.
  destruct (mapM_new_val
    (λ i result, mkCheckResultF result (runIdOf run +:+ "-" +:+ pretty i))
    (default [] (api_results run)) 0%nat m) as (out & -> & Hout).
  simpl. eexists _, _. split; [reflexivity |].
  eexists info, _. split_and!; [done | reflexivity | exact Hout].
Qed.

Lemma mapM_setResultsCallback_built name am l i m :
  (∀ run, run ∈ l → is_Some (am !! api_checkName run)) →
  ∃ out top,
    mapM (λ _, setResultsCallback name am) i l m = (Normal out, set_heapTop (λ _, top) m)
    ∧ Forall2 (runBuilt name am) l out.
Proof.
  revert i m. induction l as [|run l IH]; intros i m Hall; simpl.
  - exists [], (heapTop m). rewrite set_heapTop_same. by split.
  - destruct (Hall run) as [info Hinfo]; [by left |].
    unfold mbind, M_bind.
    destruct (setResultsCallback_built name am run info m Hinfo) as (built & top & -> & Hb).
    destruct (IH (S i) (set_heapTop (λ _, top) m)) as (out & top' & -> & Hout).
    { intros ??. apply Hall. by right. }
    simpl. exists (built :: out), top'. split; [done |]. by constructor.
Qed.

Lemma sortAttempts_perm l : sortAttempts l ≡ₚ l.
Proof.
  assert (Hins : ∀ a l, insertAttempt a l ≡ₚ a :: l).
  { intros a l'. induction l' as [|b l' IH]; simpl; [done |].
    case_bool_decide; [done |]. rewrite IH. apply Permutation_swap. }
  induction l as [|a l IH]; simpl; [done |]. by rewrite Hins, IH.
Qed.

Lemma sortAttempts_sorted l : attemptsSorted (sortAttempts l).
Proof.
  assert (Hins : ∀ a l, attemptsSorted l → attemptsSorted (insertAttempt a l)).
  { intros a l' Hs. induction Hs as [|b l' Hs IH Hb]; simpl.
    - repeat constructor.
    - case_bool_decide as Hab.
      + constructor; [by constructor |]. constructor; [done |].
        eapply Forall_impl; [exact Hb |]. simpl. intros c Hc. lia.
      + constructor; [done |].
        assert (Hperm : insertAttempt a l' ≡ₚ a :: l').
        { clear. induction l' as [|c l' IH]; simpl; [done |].
          case_bool_decide; [done |]. rewrite IH. apply Permutation_swap. }
        rewrite Hperm. constructor; [lia | done]. }
  induction l as [|a l IH]; simpl; [constructor | by apply Hins].
Qed.

Section SetResultsContent.

Variable createAttemptMap : list CheckRunApi → Completion (gmap string AttemptInfo).

(** What [updateStateSetResults] publishes when the attempt map has an
    entry for every run. *)
Lemma updateStateSetResults_published name newRuns newActions newLinks patchset m am :
  createAttemptMap newRuns = Normal am →
  (∀ run, run ∈ newRuns → is_Some (am !! api_checkName run)) →
  ∃ e runsArr top,
    updateStateSetResults createAttemptMap name newRuns newActions newLinks patchset m
    = (Normal tt, publish patchset name e top m)
    ∧ val e = resultsEntry (spread (entryOf patchset name (currentState m))) runsArr
                newActions newLinks
    ∧ Forall2 (runBuilt name (sortInfo <$> am)) newRuns (val runsArr).
Proof.
  intros Ham Hcover. rewrite updateStateSetResults_eq, Ham. simpl.
  destruct (mapM_setResultsCallback_built name (sortInfo <$> am) newRuns 0%nat
    (set_heapTop (λ _, S (S (heapTop m))) m)) as (out & top & -> & Hout).
  { intros run Hin. rewrite lookup_fmap. destruct (Hcover run Hin) as [info ->]. by eexists. }
  simpl. eexists _, (mkObj top out), _. by split_and!.
Qed.

(** X5.  When [createAttemptMap] returns a map with an entry for the
    check name of every run, [updateStateSetResults] publishes an entry
    with the given actions and links, no marker, [loading] and
    [firstTimeLoad] false, and as many runs as it was given, in the
    same order: each has the properties of the run it was made from,
    the name of the plugin, the id made of check name, change, patchset
    and attempt, and its results in their order, the result at index
    [i] with the id of the run followed by [-i]. *)
Theorem updateStateSetResults_entry (name : string) (newRuns : list CheckRunApi)
    (newActions : list Action) (newLinks : list Link) (patchset : ChecksPatchset)
    (m : ChecksModel) (am : gmap string AttemptInfo) :
  createAttemptMap newRuns = Normal am →
  (∀ run, run ∈ newRuns → is_Some (am !! api_checkName run)) →
  let m' := exec (updateStateSetResults createAttemptMap name newRuns newActions newLinks
                    patchset) m in
  ∃ e runsArr,
    entryOf patchset name (currentState m') = Some e
    ∧ loading (val e) = Some false ∧ firstTimeLoad (val e) = Some false
    ∧ errorMessage (val e) = None ∧ loginCallback (val e) = None
    ∧ actions (val e) = Some newActions ∧ links (val e) = Some newLinks
    ∧ runs (val e) = Some runsArr
    ∧ Forall2 (runBuilt name (sortInfo <$> am)) newRuns (val runsArr).
Proof.
  intros Ham Hcover m'. subst m'. unfold exec.
  destruct (updateStateSetResults_published name newRuns newActions newLinks patchset m am
              Ham Hcover) as (e & runsArr & top & -> & He & Hruns).
  simpl. exists e, runsArr. rewrite currentState_publish, entryOf_published, He.
  by split_and!.
Qed.

(** X6.  Under the same condition, the attempt details of every run
    that [updateStateSetResults] publishes are in ascending order of
    attempt number, an attempt without number counting as -1, and are
    the attempts that [createAttemptMap] listed for the check name of
    the run, rearranged. *)
Theorem updateStateSetResults_attempts_sorted (name : string) (newRuns : list CheckRunApi)
    (newActions : list Action) (newLinks : list Link) (patchset : ChecksPatchset)
    (m : ChecksModel) (am : gmap string AttemptInfo) :
  createAttemptMap newRuns = Normal am →
  (∀ run, run ∈ newRuns → is_Some (am !! api_checkName run)) →
  let m' := exec (updateStateSetResults createAttemptMap name newRuns newActions newLinks
                    patchset) m in
  ∃ e runsArr,
    entryOf patchset name (currentState m') = Some e
    ∧ runs (val e) = Some runsArr
    ∧ length (val runsArr) = length newRuns
    ∧ ∀ run, run ∈ val runsArr →
        attemptsSorted (attemptDetails (val run))
        ∧ ∃ info, am !! run_checkName run = Some info
                  ∧ attemptDetails (val run) ≡ₚ attempts info.
Proof.
  intros Ham Hcover m'. subst m'. unfold exec.
  destruct (updateStateSetResults_published name newRuns newActions newLinks patchset m am
              Ham Hcover) as (e & runsArr & top & -> & He & Hruns).
  simpl. exists e, runsArr. rewrite currentState_publish, entryOf_published, He.
  split_and!; [done | done | symmetry; by eapply Forall2_length |].
  intros built Hin.
  apply list_elem_of_lookup in Hin as [i Hi].
  destruct (Forall2_lookup_r _ _ _ _ _ Hruns Hi) as (run & _ & Hb).
  destruct Hb as (info & arr & Hinfo & Hval & _).
  rewrite lookup_fmap in Hinfo.
  destruct (am !! api_checkName run) as [info0|] eqn:Hinfo0; [| done].
  simpl in Hinfo. injection Hinfo as <-.
  unfold run_checkName. rewrite Hval. simpl. split.
  - apply sortAttempts_sorted.
  - exists info0. split; [done |]. apply sortAttempts_perm.
Qed.

End SetResultsContent.

(** The two attempts of the check "build", given out of order. *)
Lemma updateStateSetResults_entry_witness :
  let m' := exec (updateStateSetResults exampleAttemptMap "ci" [runBuild2; runBuild1] [] []
                    SELECTED) modelWithRuns in
  ∃ e runsArr,
    entryOf SELECTED "ci" (currentState m') = Some e
    ∧ runs (val e) = Some runsArr
    ∧ Forall2 (runBuilt "ci" (sortInfo <$> aggregate exampleIcon [runBuild2; runBuild1]))
        [runBuild2; runBuild1] (val runsArr).
Proof.
  intros m'.
  destruct (updateStateSetResults_entry exampleAttemptMap "ci" [runBuild2; runBuild1] [] []
              SELECTED modelWithRuns (aggregate exampleIcon [runBuild2; runBuild1]))
    as (e & runsArr & H1 & _ & _ & _ & _ & _ & _ & H2 & H3).
  - reflexivity.
  - intros run Hin. by apply aggregate_covers.
  - by exists e, runsArr.
Defined.

Lemma updateStateSetResults_attempts_sorted_witness :
  let m' := exec (updateStateSetResults exampleAttemptMap "ci" [runBuild2; runBuild1] [] []
                    SELECTED) modelWithRuns in
  ∃ e runsArr,
    entryOf SELECTED "ci" (currentState m') = Some e
    ∧ runs (val e) = Some runsArr
    ∧ ∀ run, run ∈ val runsArr → attemptsSorted (attemptDetails (val run)).
Proof.
  intros m'.
  destruct (updateStateSetResults_attempts_sorted exampleAttemptMap "ci"
              [runBuild2; runBuild1] [] [] SELECTED modelWithRuns
              (aggregate exampleIcon [runBuild2; runBuild1]))
    as (e & runsArr & H1 & H2 & _ & H3).
  - reflexivity.
  - intros run Hin. by apply aggregate_covers.
  - exists e, runsArr. split_and!; [done | done |]. intros run Hin. by apply H3.
Defined.

(** ** Derived views *)

Lemma enumerates_lookup entries p k e :
  enumerates entries p → (k, e) ∈ entries ↔ val p !! k = Some e.
Proof. intros H. rewrite H. apply elem_of_map_to_list. Qed.

Lemma enumerates_values entries p e :
  enumerates entries p → e ∈ entries.*2 ↔ ∃ k, val p !! k = Some e.
Proof.
  intros H. rewrite list_elem_of_fmap. split.
  - intros ([k e'] & -> & Hin). exists k. by apply (enumerates_lookup entries).
  - intros [k Hk]. exists (k, e). split; [done |]. by apply (enumerates_lookup entries p).
Qed.

Lemma enumerates_NoDup entries p : enumerates entries p → NoDup entries.*1.
Proof. intros H. rewrite H. apply NoDup_fst_map_to_list. Qed.

Lemma enumerates_list_to_map entries p :
  enumerates entries p → list_to_map entries = val p.
Proof.
  intros H. rewrite <- (list_to_map_to_list (val p)).
  apply list_to_map_proper; [by eapply enumerates_NoDup | done].
Qed.

Lemma existsb_elem_of {A} (f : A → bool) l :
  existsb f l = true ↔ ∃ x, x ∈ l ∧ f x = true.
Proof.
  rewrite existsb_exists. split; intros (x & Hin & Hf); exists x;
    (split; [by apply list_elem_of_In | done]).
Qed.

(** X7.  Whatever the order in which the providers of a context are
    enumerated, [someProvidersAreLoading] is true exactly when an entry
    of the context has [loading] true, and
    [someProvidersAreLoadingFirstTime] exactly when an entry has both
    [loading] and [firstTimeLoad] true; right after
    [updateStateSetLoading] the first is true for the context that was
    written, and so is the second when the plugin had not got a
    response yet. *)
Theorem someProvidersAreLoading_any_order (name : string) (patchset : ChecksPatchset)
    (m : ChecksModel) :
  (∀ entries p, enumerates entries p →
     (someProvidersAreLoading entries.*2 = true
      ↔ ∃ k e, val p !! k = Some e ∧ loading (val e) = Some true)
     ∧ (someProvidersAreLoadingFirstTime entries.*2 = true
        ↔ ∃ k e, val p !! k = Some e ∧ loading (val e) = Some true
                 ∧ firstTimeLoad (val e) = Some true))
  ∧ (let m' := exec (updateStateSetLoading name patchset) m in
     ∀ entries, enumerates entries (pluginStateOf patchset (currentState m')) →
       someProvidersAreLoading entries.*2 = true
       ∧ (firstTimeLoad (spread (entryOf patchset name (currentState m))) = Some true →
          someProvidersAreLoadingFirstTime entries.*2 = true)).
Proof.
  assert (Hchar : ∀ entries p, enumerates entries p →
     (someProvidersAreLoading entries.*2 = true
      ↔ ∃ k e, val p !! k = Some e ∧ loading (val e) = Some true)
     ∧ (someProvidersAreLoadingFirstTime entries.*2 = true
        ↔ ∃ k e, val p !! k = Some e ∧ loading (val e) = Some true
                 ∧ firstTimeLoad (val e) = Some true)).
  { intros entries p Hen. unfold someProvidersAreLoading, someProvidersAreLoadingFirstTime.
    rewrite !existsb_elem_of. split; split.
    - intros (e & [k Hk]%(enumerates_values entries p) & Hl); [| done].
      exists k, e. split; [done |]. by destruct (loading (val e)) as [[]|].
    - intros (k & e & Hk & Hl). exists e. split.
      + apply (enumerates_values entries p); [done | by exists k].
      + by rewrite Hl.
    - intros (e & [k Hk]%(enumerates_values entries p) & Hl); [| done].
      exists k, e. split; [done |].
      by destruct (loading (val e)) as [[]|], (firstTimeLoad (val e)) as [[]|].
    - intros (k & e & Hk & Hl & Hf). exists e. split.
      + apply (enumerates_values entries p); [done | by exists k].
      + by rewrite Hl, Hf. }
  split; [exact Hchar |].
  intros m' entries Hen. destruct (Hchar _ _ Hen) as [H1 H2].
  subst m'. unfold exec in *. rewrite updateStateSetLoading_eq in *. simpl in *.
  rewrite currentState_publish in *.
  pose proof (entryOf_published (heapTop m) (S (heapTop m)) patchset name
    (mkObj (2 + heapTop m)%nat
       (mkProviderState (pluginName (spread (entryOf patchset name (currentState m))))
          (Some true) (firstTimeLoad (spread (entryOf patchset name (currentState m))))
          (errorMessage (spread (entryOf patchset name (currentState m))))
          (loginCallback (spread (entryOf patchset name (currentState m))))
          (runs (spread (entryOf patchset name (currentState m))))
          (actions (spread (entryOf patchset name (currentState m))))
          (links (spread (entryOf patchset name (currentState m))))))
    (currentState m)) as Hentry.
  unfold entryOf in Hentry at 1. split.
  - apply H1. eexists name, _. split; [exact Hentry | done].
  - intros Hfirst. apply H2. eexists name, _. split; [exact Hentry | done].
Qed.

Lemma find_defined_None {A B} (get : A → option B) (l : list A) :
  find (λ x, bool_decide (get x ≠ None)) l ≫= get = None ↔ ∀ x, x ∈ l → get x = None.
Proof.
  induction l as [|a l IH]; simpl.
  - split; [intros _ x Hx; by apply elem_of_nil in Hx | done].
  - case_bool_decide as Ha; simpl.
    + split; [by intros ? | intros H; apply H; by left].
    + rewrite IH. split.
      * intros H x [-> | Hx]%elem_of_cons; auto.
      * intros H x Hx. apply H. by right.
Qed.

Lemma find_defined_Some {A B} (get : A → option B) (l : list A) b :
  find (λ x, bool_decide (get x ≠ None)) l ≫= get = Some b → ∃ x, x ∈ l ∧ get x = Some b.
Proof.
  induction l as [|a l IH]; simpl; [done |].
  case_bool_decide as Ha; simpl.
  - intros Hb. exists a. split; [by left | done].
  - intros (x & Hx & Hb)%IH. exists x. split; [by right | done].
Qed.

(** X8.  Whatever the order of enumeration, [errorMessageLatest] is
    undefined exactly when no provider of the context has an
    [errorMessage] (an empty message is one), and a message it gives is
    the message of a provider of the context: the one of the plugin
    [name] when no other plugin has a message.  The same holds of
    [loginCallbackLatest]. *)
Theorem errorMessageLatest_any_order (entries : list (string * ChecksProviderState))
    (p : PluginState) :
  enumerates entries p →
  (errorMessageLatest entries.*2 = None
   ↔ ∀ k e, val p !! k = Some e → errorMessage (val e) = None)
  ∧ (∀ message, errorMessageLatest entries.*2 = Some message →
       ∃ k e, val p !! k = Some e ∧ errorMessage (val e) = Some message)
  ∧ (∀ name e message,
       val p !! name = Some e → errorMessage (val e) = Some message →
       (∀ k e', val p !! k = Some e' → is_Some (errorMessage (val e')) → k = name) →
       errorMessageLatest entries.*2 = Some message)
  ∧ (loginCallbackLatest entries.*2 = None
     ↔ ∀ k e, val p !! k = Some e → loginCallback (val e) = None)
  ∧ (∀ callback, loginCallbackLatest entries.*2 = Some callback →
       ∃ k e, val p !! k = Some e ∧ loginCallback (val e) = Some callback).
Proof.
  intros Hen. unfold errorMessageLatest, loginCallbackLatest.
  assert (Hnone : ∀ B (get : ChecksProviderState → option B),
    find (λ x, bool_decide (get x ≠ None)) entries.*2 ≫= get = None
    ↔ ∀ k e, val p !! k = Some e → get e = None).
  { intros B get. rewrite find_defined_None. split.
    - intros H k e Hk. apply H. apply (enumerates_values entries p); [done | by exists k].
    - intros H e [k Hk]%(enumerates_values entries p); [| done]. by apply (H k). }
  assert (Hsome : ∀ B (get : ChecksProviderState → option B) b,
    find (λ x, bool_decide (get x ≠ None)) entries.*2 ≫= get = Some b
    → ∃ k e, val p !! k = Some e ∧ get e = Some b).
  { intros B get b (e & [k Hk]%(enumerates_values entries p) & Hb)%find_defined_Some;
      [| done]. by exists k, e. }
  split_and!.
  - apply (Hnone _ (λ e, errorMessage (val e))).
  - apply (Hsome _ (λ e, errorMessage (val e))).
  - intros name e message Hk He Honly.
    destruct (find _ entries.*2 ≫= λ x, errorMessage (val x)) as [message'|] eqn:Hfind.
    + apply (Hsome _ (λ e, errorMessage (val e))) in Hfind as (k & e' & Hk' & He').
      assert (k = name) as -> by (apply (Honly k e'); [done | by rewrite He']).
      congruence.
    + pose proof (proj1 (Hnone _ (λ e, errorMessage (val e))) Hfind name e Hk) as Hno.
      simpl in Hno. congruence.
  - apply (Hnone _ (λ e, loginCallback (val e))).
  - apply (Hsome _ (λ e, loginCallback (val e))).
Qed.

(** Scenario B: the fetch of "ci" has failed with "quota exceeded". *)
Lemma errorMessageLatest_any_order_witness :
  let p := pluginStateLatest
             (val (currentState (exec (updateStateSetError "ci" "quota exceeded" LATEST)
                                   modelWithRuns))) in
  ∃ k e, val p !! k = Some e ∧ errorMessage (val e) = Some "quota exceeded".
Proof.
  intros p.
  destruct (errorMessageLatest_any_order (map_to_list (val p)) p) as (_ & H & _).
  - unfold enumerates. reflexivity.
  - apply H. vm_compute. reflexivity.
Defined.

Lemma errorMessagesLatest_foldl (l : list (string * ChecksProviderState))
    (acc : gmap string string) name :
  NoDup l.*1 →
  Forall (λ entry, pluginName (val entry.2) = Some entry.1) l →
  foldl (λ errorMessages providerState,
           match errorMessage (val providerState) with
           | None => errorMessages
           | Some message =>
               <[propertyKey (pluginName (val providerState)) := message]> errorMessages
           end) acc l.*2 !! name
  = match (list_to_map l : gmap string ChecksProviderState) !! name
          ≫= λ e, errorMessage (val e) with
    | Some message => Some message
    | None => acc !! name
    end.
Proof.
  revert acc. induction l as [|[k e] l IH]; intros acc Hnd Hall; [done |].
  rewrite fmap_cons in Hnd. apply NoDup_cons in Hnd as [Hk Hnd].
  apply Forall_cons in Hall as [He Hall]. simpl in He, Hk.
  rewrite fmap_cons, list_to_map_cons. cbn [foldl snd]. rewrite IH by done.
  destruct (decide (k = name)) as [-> | Hne].
  - rewrite lookup_insert_eq.
    rewrite (not_elem_of_list_to_map_1 (M := gmap string) l name Hk). simpl.
    destruct (errorMessage (val e)) as [message|]; [| done].
    rewrite He. simpl. by rewrite lookup_insert_eq.
  - rewrite lookup_insert_ne by done.
    destruct (list_to_map l !! name ≫= λ e0, errorMessage (val e0)); [done |].
    destruct (errorMessage (val e)) as [message|]; [| done].
    rewrite He. simpl. by rewrite lookup_insert_ne.
Qed.

(** X9.  In a context whose entries carry the name they are registered
    under, [errorMessagesLatest] maps, whatever the order of
    enumeration, every plugin that has an [errorMessage] to it, and no
    other name to anything. *)
Theorem errorMessagesLatest_lookup (entries : list (string * ChecksProviderState))
    (p : PluginState) (name : string) :
  enumerates entries p →
  map_Forall (λ k e, pluginName (val e) = Some k) (val p) →
  errorMessagesLatest entries.*2 !! name = val p !! name ≫= λ e, errorMessage (val e).
Proof.
  intros Hen Hnames. unfold errorMessagesLatest.
  rewrite errorMessagesLatest_foldl.
  - rewrite (enumerates_list_to_map entries p Hen), lookup_empty.
    by destruct (val p !! name ≫= λ e, errorMessage (val e)).
  - by eapply enumerates_NoDup.
  - apply Forall_forall. intros [k e] Hin. simpl.
    apply (enumerates_lookup entries p) in Hin; [| done].
    exact (Hnames k e Hin).
Qed.

Lemma reduceSpread_foldl {A} (get : ChecksProviderState → option (list A)) values acc :
  foldl (λ acc providerState,
           match acc with
           | Throw e => Throw e
           | Normal all =>
               match get providerState with
               | Some items => Normal (all ++ items)
               | None => Throw (TypeError "undefined is not iterable")
               end
           end) acc values
  = match acc with
    | Throw e => Throw e
    | Normal all =>
        if forallb (λ providerState, bool_decide (is_Some (get providerState))) values
        then Normal (all ++ mjoin (omap get values))
        else Throw (TypeError "undefined is not iterable")
    end.
Proof.
  revert acc. induction values as [|p values IH]; intros acc; simpl.
  - destruct acc; [by rewrite app_nil_r | done].
  - rewrite IH. destruct acc as [all|e]; [| done].
    destruct (get p) as [items|]; simpl; [| done].
    destruct (forallb _ values); [| done]. by rewrite app_assoc.
Qed.

(** X10.  The views that concatenate a property of all providers (the
    top-level actions and links, all runs) throw a [TypeError] exactly
    when a provider of the context lacks the property, as an entry made
    by spreading [undefined] does; when they return, whatever the order
    of enumeration, an item is in the view exactly when it is in the
    property of a provider of the context. *)
Theorem reduceSpread_any_order {A : Type} (get : ChecksProviderState → option (list A))
    (entries : list (string * ChecksProviderState)) (p : PluginState) :
  enumerates entries p →
  (returnsNormally (reduceSpread get entries.*2)
   ↔ ∀ k e, val p !! k = Some e → is_Some (get e))
  ∧ (∀ all, reduceSpread get entries.*2 = Normal all →
       ∀ x, x ∈ all ↔ ∃ k e items, val p !! k = Some e ∧ get e = Some items ∧ x ∈ items).
Proof.
  intros Hen. unfold reduceSpread, returnsNormally. rewrite reduceSpread_foldl. simpl.
  destruct (forallb _ entries.*2) eqn:Hall.
  - split.
    + split; [| by eexists]. intros _ k e Hk.
      assert (Hin : e ∈ entries.*2) by (apply (enumerates_values entries p); eauto).
      rewrite forallb_forall in Hall. apply list_elem_of_In in Hin.
      apply Hall in Hin. by apply bool_decide_eq_true_1 in Hin.
    + intros all [= <-] x. rewrite list_elem_of_join. split.
      * intros (items & Hx & (e & He & Hget)%list_elem_of_omap).
        apply (enumerates_values entries p) in He as [k Hk]; [| done].
        by exists k, e, items.
      * intros (k & e & items & Hk & Hget & Hx). exists items. split; [done |].
        apply list_elem_of_omap. exists e. split; [| done].
        apply (enumerates_values entries p); eauto.
  - split; [| done]. split; [by intros [? ?] |]. intros Hsome.
    apply not_true_iff_false in Hall. destruct Hall. apply forallb_forall.
    intros e Hin. apply list_elem_of_In in Hin.
    apply (enumerates_values entries p) in Hin as [k Hk]; [| done].
    apply bool_decide_eq_true_2. by apply (Hsome k).
Qed.

Lemma checkToPluginMap_runs (k : string) (rs : list CheckRun) (acc : gmap string string) c :
  foldl (λ map run, <[run_checkName run := k]> map) acc rs !! c
  = if existsb (λ run, bool_decide (run_checkName run = c)) rs then Some k else acc !! c.
Proof.
  revert acc. induction rs as [|run rs IH]; intros acc; simpl; [done |].
  rewrite IH. destruct (existsb _ rs); [by rewrite orb_true_r |].
  rewrite orb_false_r. case_bool_decide as Hc.
  - by rewrite <- Hc, lookup_insert_eq.
  - by rewrite lookup_insert_ne.
Qed.

Lemma checkToPluginMap_foldl (entries : list (string * ChecksProviderState))
    (acc : Completion (gmap string string)) :
  foldl (λ acc entry,
           match acc with
           | Throw e => Throw e
           | Normal map =>
               match runs (val entry.2) with
               | Some providerRuns =>
                   Normal (foldl (λ map run, <[run_checkName run := entry.1]> map)
                             map (val providerRuns))
               | None => Throw (TypeError "undefined is not iterable")
               end
           end) acc entries
  = match acc with
    | Throw e => Throw e
    | Normal map =>
        if forallb (λ entry, bool_decide (is_Some (runs (val entry.2)))) entries
        then Normal (foldl (λ map entry,
                              foldl (λ map run, <[run_checkName run := entry.1]> map) map
                                (from_option val [] (runs (val entry.2))))
                       map entries)
        else Throw (TypeError "undefined is not iterable")
    end.
Proof.
  revert acc. induction entries as [|[k e] entries IH]; intros acc; simpl.
  - by destruct acc.
  - rewrite IH. destruct acc as [map|err]; [| done].
    by destruct (runs (val e)) as [rs|].
Qed.

Lemma checkToPluginMap_lookup (entries : list (string * ChecksProviderState))
    (acc : gmap string string) c :
  let map := foldl (λ map entry,
                      foldl (λ map run, <[run_checkName run := entry.1]> map) map
                        (from_option val [] (runs (val entry.2))))
               acc entries in
  (∀ plugin, map !! c = Some plugin →
     acc !! c = Some plugin ∨ ∃ e, (plugin, e) ∈ entries ∧ claimsCheck c (plugin, e))
  ∧ (is_Some (acc !! c) ∨ (∃ entry, entry ∈ entries ∧ claimsCheck c entry) →
     is_Some (map !! c)).
Proof.
  revert acc. induction entries as [|[k e] entries IH]; intros acc map; subst map; simpl.
  - split; [by left |]. intros [H | (entry & Hin & _)]; [done | by apply elem_of_nil in Hin].
  - destruct (IH (foldl (λ map run, <[run_checkName run := k]> map) acc
                    (from_option val [] (runs (val e))))) as [Hsound Hcomplete].
    rewrite checkToPluginMap_runs in Hsound, Hcomplete.
    destruct (existsb _ (from_option val [] (runs (val e)))) eqn:Hex.
    + apply existsb_elem_of in Hex as (run & Hrun & Hc%bool_decide_eq_true_1).
      split.
      * intros plugin [[= <-] | (e' & Hin & Hcl)]%Hsound.
        -- right. exists e. split; [by left | by exists run].
        -- right. exists e'. split; [by right | done].
      * intros _. apply Hcomplete. left. by eexists.
    + split.
      * intros plugin [Hacc | (e' & Hin & Hcl)]%Hsound; [by left |].
        right. exists e'. split; [by right | done].
      * intros [Hacc | (entry & [-> | Hin]%elem_of_cons & Hcl)]; apply Hcomplete.
        -- by left.
        -- destruct Hcl as (run & Hrun & Hc). simpl in Hrun.
           assert (existsb (λ run, bool_decide (run_checkName run = c))
                     (from_option val [] (runs (val e))) = true) as Hex'.
           { apply existsb_elem_of. exists run. split; [done |].
             by apply bool_decide_eq_true_2. }
           congruence.
        -- right. by exists entry.
Qed.

(** X11.  [checkToPluginMap] throws exactly when a provider of the
    context has no array of runs.  When it returns, whatever the order
    of enumeration, a check name is mapped to a plugin exactly when
    some plugin of the context has a run of that name, the plugin it is
    mapped to is one of those, and it is the plugin [name] when no
    other plugin has a run of that name. *)
Theorem checkToPluginMap_any_order (entries : list (string * ChecksProviderState))
    (p : PluginState) :
  enumerates entries p →
  (returnsNormally (checkToPluginMap entries)
   ↔ ∀ k e, val p !! k = Some e → is_Some (runs (val e)))
  ∧ ∀ map, checkToPluginMap entries = Normal map →
      ∀ c,
        (∀ plugin, map !! c = Some plugin →
           ∃ e, val p !! plugin = Some e ∧ claimsCheck c (plugin, e))
        ∧ ((∃ k e, val p !! k = Some e ∧ claimsCheck c (k, e)) → is_Some (map !! c))
        ∧ (∀ name e, val p !! name = Some e → claimsCheck c (name, e) →
             (∀ k e', val p !! k = Some e' → claimsCheck c (k, e') → k = name) →
             map !! c = Some name).
Proof.
  intros Hen. unfold checkToPluginMap, returnsNormally. rewrite checkToPluginMap_foldl.
  assert (Hparts : ∀ map : gmap string string,
    foldl (λ map entry,
             foldl (λ map run, <[run_checkName run := entry.1]> map) map
               (from_option val [] (runs (val entry.2)))) ∅ entries = map →
    ∀ c,
      (∀ plugin, map !! c = Some plugin →
         ∃ e, val p !! plugin = Some e ∧ claimsCheck c (plugin, e))
      ∧ ((∃ k e, val p !! k = Some e ∧ claimsCheck c (k, e)) → is_Some (map !! c))).
  { intros map <- c.
    destruct (checkToPluginMap_lookup entries ∅ c) as [Hsound Hcomplete]. split.
    - intros plugin [Hacc | (e & Hin & Hcl)]%Hsound; [by rewrite lookup_empty in Hacc |].
      exists e. split; [| done]. by apply (enumerates_lookup entries p).
    - intros (k & e & Hk & Hcl). apply Hcomplete. right. exists (k, e).
      split; [| done]. by apply (enumerates_lookup entries p). }
  destruct (forallb _ entries) eqn:Hall.
  - split.
    + split; [| by eexists]. intros _ k e Hk.
      rewrite forallb_forall in Hall.
      assert (Hin : (k, e) ∈ entries) by (by apply (enumerates_lookup entries p)).
      apply list_elem_of_In in Hin. apply Hall in Hin.
      by apply bool_decide_eq_true_1 in Hin.
    + intros map [= Hmap] c. destruct (Hparts map Hmap c) as [Hsound Hcomplete].
      split_and!; [done | done |].
      intros name e Hk Hcl Honly.
      destruct Hcomplete as [plugin Hplugin]; [by exists name, e |].
      destruct (Hsound plugin Hplugin) as (e' & Hk' & Hcl').
      by rewrite (Honly plugin e' Hk' Hcl') in Hplugin.
  - split; [| done]. split; [by intros [? ?] |]. intros Hsome.
    apply not_true_iff_false in Hall. destruct Hall. apply forallb_forall.
    intros [k e] Hin. apply list_elem_of_In in Hin.
    apply (enumerates_lookup entries p) in Hin; [| done].
    apply bool_decide_eq_true_2. by apply (Hsome k).
Qed.

(** The check "build" belongs to the plugin "ci". *)
Lemma checkToPluginMap_any_order_witness :
  let p := pluginStateLatest (val (currentState modelWithRuns)) in
  ∃ map, checkToPluginMap (map_to_list (val p)) = Normal map ∧ is_Some (map !! "build").
Proof.
  intros p.
  destruct (checkToPluginMap (map_to_list (val p))) as [map|] eqn:Hmap;
    [| by vm_compute in Hmap].
  exists map. split; [done |].
  destruct (checkToPluginMap_any_order (map_to_list (val p)) p) as [_ H].
  - unfold enumerates. reflexivity.
  - destruct (H map Hmap "build") as (_ & Hcomplete & _). apply Hcomplete.
    eexists "ci", _. split; [vm_compute; reflexivity |].
    eexists. split; [simpl; by left | vm_compute; reflexivity].
Defined.

(** ** Writing for registered plugins only *)

Lemma dom_insert_same {A} (k : string) (v : A) (m : gmap string A) :
  k ∈ dom m → dom (<[k := v]> m) =@{gset string} dom m.
Proof. intros Hk. rewrite dom_insert_L. apply subseteq_union_1_L. by apply singleton_subseteq_l. Qed.

Lemma wellRegistered_entry patchset name m :
  wellRegistered m → is_Some (providers m !! name) →
  ∃ e, entryOf patchset name (currentState m) = Some e ∧ entryComplete name e.
Proof.
  intros (_ & [HdL HcL] & [HdS HcS]) Hreg. apply elem_of_dom in Hreg.
  unfold entryOf. destruct patchset; simpl in *.
  - rewrite <- HdL in Hreg. apply elem_of_dom in Hreg as [e He]. exists e.
    split; [done |]. exact (HcL name e He).
  - rewrite <- HdS in Hreg. apply elem_of_dom in Hreg as [e He]. exists e.
    split; [done |]. exact (HcS name e He).
Qed.

Lemma wellRegistered_publish patchset name e top m :
  wellRegistered m → is_Some (providers m !! name) → entryComplete name e →
  wellRegistered (publish patchset name e top m).
Proof.
  intros (Hsub & [HdL HcL] & [HdS HcS]) Hreg He. apply elem_of_dom in Hreg.
  unfold wellRegistered, contextRegistered. rewrite !currentState_publish.
  unfold publishedState. destruct patchset; simpl in *; split_and!; try done.
  - by rewrite dom_insert_same by (by rewrite HdL).
  - by apply map_Forall_insert_2.
  - by rewrite dom_insert_same by (by rewrite HdS).
  - by apply map_Forall_insert_2.
Qed.

Lemma wellRegistered_register name provider config m :
  wellRegistered m → wellRegistered (exec (register name provider config) m).
Proof.
  intros Hm. unfold exec, register, gets, mbind, M_bind. simpl.
  destruct (providers m !! name) as [p|] eqn:Hp; simpl; [done |].
  destruct Hm as (Hsub & [HdL HcL] & [HdS HcS]).
  unfold wellRegistered, contextRegistered, currentState in *. simpl in *.
  rewrite !dom_insert_L, Hsub, HdL, HdS.
  split_and!; try done; apply map_Forall_insert_2; try done;
    (split_and!; [done | by eexists ..]).
Qed.

Lemma wellRegistered_setPatchset num m :
  wellRegistered m → wellRegistered (exec (setPatchset num) m).
Proof. by intros (Hsub & HL & HS). Qed.

Lemma wellRegistered_patchNums routerPs latestPs m :
  wellRegistered m → wellRegistered (exec (patchNumsSubscriber routerPs latestPs) m).
Proof.
  intros (Hsub & HL & HS). unfold patchNumsSubscriber.
  by destruct latestPs as [latest|], routerPs.
Qed.

Lemma reload_eq name m :
  reload name m
  = match reloadSubjects m !! name with
    | Some subject =>
        (Normal tt,
         set_reloadSubjects <[name := mkSubject tt (subject_emitted subject ++ [tt])]> m)
    | None =>
        (Throw (TypeError "Cannot read properties of undefined (reading 'next')"), m)
    end.
Proof. unfold reload, gets, mbind, M_bind. simpl. by destruct (reloadSubjects m !! name). Qed.

Lemma wellRegistered_reload name m :
  wellRegistered m → wellRegistered (exec (reload name) m).
Proof.
  intros (Hsub & HL & HS). unfold exec. rewrite reload_eq.
  destruct (reloadSubjects m !! name) as [subject|] eqn:Hs; [| done].
  split_and!; try done. simpl.
  by rewrite dom_insert_same by (by apply elem_of_dom_2 in Hs).
Qed.

Section Reachable.

Variable createAttemptMap : list CheckRunApi → Completion (gmap string AttemptInfo).

Lemma wellRegistered_runOp op m :
  wellRegistered m → is_Some (providers m !! opName op) →
  wellRegistered (exec (runOp createAttemptMap op) m).
Proof.
  intros Hm Hreg.
  destruct (wellRegistered_entry (opPatchset op) (opName op) m Hm Hreg)
    as (old & Hold & Hname & Hl & Hf & Hr & Ha & Hk).
  destruct op as [name patchset | name patchset | name message patchset
    | name callback patchset | name newRuns newActions newLinks patchset
    | name run result patchset]; simpl in *; unfold exec.
  - rewrite updateStateSetProvider_eq. apply wellRegistered_publish; [done | done |].
    split_and!; [done | by eexists ..].
  - rewrite updateStateSetLoading_eq. apply wellRegistered_publish; [done | done |].
    simpl. rewrite Hold. by split_and!.
  - rewrite updateStateSetError_eq. apply wellRegistered_publish; [done | done |].
    simpl. rewrite Hold. split_and!; [done | by eexists .. | done].
  - rewrite updateStateSetNotLoggedIn_eq. apply wellRegistered_publish; [done | done |].
    simpl. rewrite Hold. split_and!; [done | by eexists .. | done].
  - rewrite updateStateSetResults_eq.
    destruct (createAttemptMap newRuns) as [am|e]; [| done]. simpl.
    destruct (mapM _ _ _ _).1; [| done]. simpl.
    apply wellRegistered_publish; [done | done |].
    rewrite Hold. split_and!; [done | by eexists ..].
  - destruct Hr as [oldRuns Hr].
    destruct (updateStateUpdateResult_eq name run result patchset m old oldRuns Hold Hr)
      as (newRuns & top & _ & _ & ->). simpl.
    destruct (existsb _ _); [| done].
    apply wellRegistered_publish; [done | done |].
    split_and!; [done | done | done | by eexists | done | done].
Qed.

Lemma wellRegistered_runModelOps ops m :
  wellRegistered m → disciplined createAttemptMap ops m →
  wellRegistered (runModelOps createAttemptMap ops m).
Proof.
  revert m. induction ops as [|op ops IH]; intros m Hm Hd; [done |].
  destruct Hd as [Hop Hd]. simpl. apply IH; [| done].
  destruct op as [name provider config | op | routerPs latestPs | name]; simpl.
  - by apply wellRegistered_register.
  - by apply wellRegistered_runOp.
  - by apply wellRegistered_patchNums.
  - by apply wellRegistered_reload.
Qed.

Lemma wellRegistered_initial : wellRegistered initialModel.
Proof.
  unfold wellRegistered, contextRegistered. simpl.
  rewrite !dom_empty_L. split_and!; try done; apply map_Forall_empty.
Qed.

(** X12.  Whatever is done to a new model (plugins register, the store
    is written, patchset numbers arrive, reloads are asked for), as
    long as the store is written for plugins that are registered at
    that time: the registry, the reload subjects and the two contexts
    of the current snapshot are about the same plugins, and every entry
    carries the name it is registered under and has every property the
    interface requires, so that a registered plugin has a complete
    entry in either context. *)
Theorem wellRegistered_reachable (ops : list ModelOp) :
  disciplined createAttemptMap ops initialModel →
  let m := runModelOps createAttemptMap ops initialModel in
  wellRegistered m
  ∧ ∀ name patchset, is_Some (providers m !! name) →
      ∃ e, entryOf patchset name (currentState m) = Some e ∧ entryComplete name e.
Proof.
  intros Hd m.
  assert (Hm : wellRegistered m)
    by (apply wellRegistered_runModelOps; [apply wellRegistered_initial | done]).
  split; [done |]. intros name patchset Hreg. by apply wellRegistered_entry.
Qed.

End Reachable.

Lemma wellRegistered_modelWithRuns : wellRegistered modelWithRuns.
Proof.
  apply (wellRegistered_runModelOps exampleAttemptMap
    [Register "ci" (mkProvider 0) None;
     Store (SetResults "ci" [runBuild1; runBuild2] [] [] LATEST)] initialModel).
  - apply wellRegistered_initial.
  - vm_compute. split_and!; try done; by eexists.
Qed.

(** The plugin "ci" registers, a fetch starts and fails. *)
Lemma wellRegistered_reachable_witness :
  let m := runModelOps exampleAttemptMap
             [Register "ci" (mkProvider 0) None;
              Store (SetLoading "ci" LATEST);
              Store (SetError "ci" "quota exceeded" LATEST)] initialModel in
  wellRegistered m.
Proof.
  intros m.
  apply (wellRegistered_reachable exampleAttemptMap
    [Register "ci" (mkProvider 0) None;
     Store (SetLoading "ci" LATEST);
     Store (SetError "ci" "quota exceeded" LATEST)]).
  vm_compute. split_and!; try done; by eexists.
Defined.

(** ** The views of a model written for registered plugins *)

Lemma allResultsSelected_foldl values acc :
  foldl (λ acc providerState,
           match acc with
           | Throw e => Throw e
           | Normal allResults =>
               match runs (val providerState) with
               | Some providerRuns =>
                   Normal (allResults ++
                           foldl (λ collected run, collected ++ resultsOf run) []
                             (val providerRuns))
               | None =>
                   Throw (TypeError "Cannot read properties of undefined (reading 'reduce')")
               end
           end) acc values
  = match acc with
    | Throw e => Throw e
    | Normal allResults =>
        if forallb (λ providerState, bool_decide (is_Some (runs (val providerState)))) values
        then Normal (allResults ++
                     mjoin ((λ providerState,
                               foldl (λ collected run, collected ++ resultsOf run) []
                                 (from_option val [] (runs (val providerState))))
                            <$> values))
        else Throw (TypeError "Cannot read properties of undefined (reading 'reduce')")
    end.
Proof.
  revert acc. induction values as [|p values IH]; intros acc; simpl.
  - destruct acc; [by rewrite app_nil_r | done].
  - rewrite IH. destruct acc as [all|e]; [| done].
    destruct (runs (val p)) as [rs|]; simpl; [| done].
    destruct (forallb _ values); [| done]. by rewrite app_assoc.
Qed.

Lemma forallb_complete (P : ChecksProviderState → bool) entries patchset m :
  wellRegistered m →
  enumerates entries (pluginStateOf patchset (currentState m)) →
  (∀ k e, entryComplete k e → P e = true) →
  forallb P entries.*2 = true.
Proof.
  intros (_ & [_ HcL] & [_ HcS]) Hen HP. apply forallb_forall. intros e Hin.
  apply list_elem_of_In in Hin.
  apply (enumerates_values entries (pluginStateOf patchset (currentState m)))
    in Hin as [k Hk]; [| done].
  apply (HP k). destruct patchset; [exact (HcL k e Hk) | exact (HcS k e Hk)].
Qed.

(** X13.  In a model that was written for registered plugins only, no
    view throws, for either context and whatever the order of
    enumeration: the top-level actions and links, all runs, the map
    from check names to plugins and all results are computed, and the
    map of error messages binds every plugin to the [errorMessage] of
    its entry. *)
Theorem views_of_registered (m : ChecksModel) (patchset : ChecksPatchset)
    (entries : list (string * ChecksProviderState)) :
  wellRegistered m →
  enumerates entries (pluginStateOf patchset (currentState m)) →
  returnsNormally (topLevelActions entries.*2)
  ∧ returnsNormally (topLevelLinksSelected entries.*2)
  ∧ returnsNormally (allRuns entries.*2)
  ∧ returnsNormally (checkToPluginMap entries)
  ∧ returnsNormally (allResultsSelected entries.*2)
  ∧ ∀ name, errorMessagesLatest entries.*2 !! name
            = entryOf patchset name (currentState m) ≫= λ e, errorMessage (val e).
Proof.
  intros Hm Hen.
  unfold topLevelActions, topLevelLinksSelected, allRuns, reduceSpread, checkToPluginMap,
    allResultsSelected, returnsNormally.
  rewrite !reduceSpread_foldl, checkToPluginMap_foldl, allResultsSelected_foldl.
  rewrite !(forallb_complete _ entries patchset m Hm Hen).
  - split_and!; try by eexists.
    + assert (forallb (λ entry : string * ChecksProviderState,
                bool_decide (is_Some (runs (val entry.2)))) entries = true) as ->;
        [| by eexists].
      rewrite <- (forallb_complete
        (λ e, bool_decide (is_Some (runs (val e)))) entries patchset m Hm Hen).
      * clear. induction entries as [|[k e] entries IH]; simpl; [done | by rewrite IH].
      * intros k e (_ & _ & _ & Hr & _). by apply bool_decide_eq_true_2.
    + intros name. unfold errorMessagesLatest, entryOf.
      rewrite errorMessagesLatest_foldl.
      * rewrite (enumerates_list_to_map entries _ Hen), lookup_empty.
        by destruct (_ ≫= _).
      * by eapply enumerates_NoDup.
      * apply Forall_forall. intros [k e] Hin. simpl.
        apply (enumerates_lookup entries (pluginStateOf patchset (currentState m)))
          in Hin; [| done].
        destruct Hm as (_ & [_ HcL] & [_ HcS]).
        destruct patchset; [exact (proj1 (HcL k e Hin)) | exact (proj1 (HcS k e Hin))].
  - intros k e (_ & _ & _ & Hr & _). by apply bool_decide_eq_true_2.
  - intros k e (_ & _ & _ & [rs Hr] & _). apply bool_decide_eq_true_2. rewrite Hr. by eexists.
  - intros k e (_ & _ & _ & _ & _ & Hl). by apply bool_decide_eq_true_2.
  - intros k e (_ & _ & _ & _ & Ha & _). by apply bool_decide_eq_true_2.
Qed.

Lemma views_of_registered_witness :
  let entries := map_to_list (val (pluginStateOf LATEST (currentState modelWithRuns))) in
  returnsNormally (allRuns entries.*2) ∧ returnsNormally (checkToPluginMap entries).
Proof.
  intros entries.
  destruct (views_of_registered modelWithRuns LATEST entries)
    as (_ & _ & H1 & H2 & _).
  - apply wellRegistered_modelWithRuns.
  - unfold enumerates. reflexivity.
  - by split.
Defined.

(** The store was written for "ghost", which never registered: its
    entry has [loading] and nothing else, and the view of all runs
    throws. *)
Lemma reduceSpread_any_order_witness :
  let p := pluginStateOf LATEST
             (currentState (exec (updateStateSetLoading "ghost" LATEST) modelWithRuns)) in
  ¬ (∀ k e, val p !! k = Some e → is_Some (runs (val e)))
  ∧ allRuns (map_to_list (val p)).*2 = Throw (TypeError "undefined is not iterable").
Proof.
  intros p.
  destruct (reduceSpread_any_order (λ providerState, val <$> runs (val providerState))
              (map_to_list (val p)) p) as [Hreturns _].
  - unfold enumerates. reflexivity.
  - assert (Hthrows : allRuns (map_to_list (val p)).*2
                      = Throw (TypeError "undefined is not iterable"))
      by (vm_compute; reflexivity).
    split; [| done]. intros Hall.
    assert (Hr : returnsNormally (allRuns (map_to_list (val p)).*2)).
    { apply Hreturns. intros k e Hk. destruct (Hall k e Hk) as [rs ->]. by eexists. }
    destruct Hr as [rs Hr]. congruence.
Defined.

Lemma errorMessagesLatest_lookup_witness :
  let m := exec (updateStateSetError "ci" "quota exceeded" LATEST) modelWithRuns in
  let p := pluginStateOf LATEST (currentState m) in
  errorMessagesLatest (map_to_list (val p)).*2 !! "ci" = Some "quota exceeded".
Proof.
  intros m p.
  rewrite (errorMessagesLatest_lookup (map_to_list (val p)) p "ci").
  - vm_compute. reflexivity.
  - unfold enumerates. reflexivity.
  - assert (Hm : wellRegistered m).
    { apply (wellRegistered_runOp exampleAttemptMap (SetError "ci" "quota exceeded" LATEST));
        [apply wellRegistered_modelWithRuns | vm_compute; by eexists]. }
    destruct Hm as (_ & [_ Hc] & _). intros k e Hk. exact (proj1 (Hc k e Hk)).
Defined.

(** ** Reloading *)








(** ** The patchset numbers of the router and of the change *)


(** ** The responses of a provider *)

Section ResponsesHandled.

Variable createAttemptMap : list CheckRunApi → Completion (gmap string AttemptInfo).

(** X17.  The subscriber of the fetch pipeline on a response that is
    not OK.  An error response is reported and stored with its message,
    or with "-" when it has none (an empty message is kept); the
    response made by [createErrorResponse] is stored with the text it
    was given.  A response NOT_LOGGED_IN without a login callback
    throws before anything is reported or written; with a callback it
    is reported without message and the callback is stored, without an
    error message.  An OK response reports nothing. *)
Theorem fetchResponseSubscriber_not_ok (name : string) (patchset : ChecksPatchset)
    (response : FetchResponse) (stringified : string) (m : ChecksModel) :
  let handled := fetchResponseSubscriber createAttemptMap name patchset in
  match responseCode response with
  | RESPONSE_ERROR =>
      let message := default "-" (response_errorMessage response) in
      (handled response m).1 = Normal (Some (mkReport CHECKS_API_ERROR name (Some message)))
      ∧ ∃ entry,
          entryOf patchset name (currentState (exec (handled response) m)) = Some entry
          ∧ errorMessage (val entry) = Some message
          ∧ loginCallback (val entry) = None
          ∧ loading (val entry) = Some false
  | RESPONSE_NOT_LOGGED_IN =>
      match response_loginCallback response with
      | None => handled response m = (Throw (AssertError "loginCallback is not defined"), m)
      | Some callback =>
          (handled response m).1 = Normal (Some (mkReport CHECKS_API_NOT_LOGGED_IN name None))
          ∧ ∃ entry,
              entryOf patchset name (currentState (exec (handled response) m)) = Some entry
              ∧ errorMessage (val entry) = None
              ∧ loginCallback (val entry) = Some callback
              ∧ loading (val entry) = Some false
      end
  | RESPONSE_OK => ∀ report, (handled response m).1 ≠ Normal (Some report)
  end
  ∧ ∃ entry,
      entryOf patchset name
        (currentState (exec (handled (createErrorResponse name stringified)) m)) = Some entry
      ∧ errorMessage (val entry)
        = Some ("Error message from plugin '" +:+ name +:+ "': " +:+ stringified).
Proof.
  intros handled. subst handled. split.
  - unfold fetchResponseSubscriber, exec, mbind, M_bind.
    destruct (responseCode response).
    + intros report.
      by destruct (updateStateSetResults _ _ _ _ _ _ _) as [[[]|e] m'].
    + rewrite updateStateSetError_eq. simpl. split; [done |].
      eexists. rewrite currentState_publish, entryOf_published. by split_and!.
    + destruct (response_loginCallback response) as [callback|]; [| done].
      cbn [assertIsDefined mret M_ret]. rewrite updateStateSetNotLoggedIn_eq. simpl.
      split; [done |].
      eexists. rewrite currentState_publish, entryOf_published. by split_and!.
  - unfold fetchResponseSubscriber, exec, mbind, M_bind, createErrorResponse.
    cbn [responseCode response_errorMessage default].
    rewrite updateStateSetError_eq. simpl.
    eexists. rewrite currentState_publish, entryOf_published. by split.
Qed.

(** X18.  The response [empty()], which the pipeline gives when it has
    no change or no patchset number to ask for, is stored as results
    when [createAttemptMap] returns for no runs: whatever the entry of
    the plugin was, afterwards it has no runs, no actions, no links and
    no marker, and it is no longer loading. *)
Theorem emptyResponse_clears (name : string) (patchset : ChecksPatchset) (m : ChecksModel)
    (am : gmap string AttemptInfo) :
  createAttemptMap [] = Normal am →
  let handled := fetchResponseSubscriber createAttemptMap name patchset emptyResponse in
  (handled m).1 = Normal None
  ∧ ∃ entry noRuns,
      entryOf patchset name (currentState (exec handled m)) = Some entry
      ∧ runs (val entry) = Some noRuns ∧ val noRuns = []
      ∧ actions (val entry) = Some [] ∧ links (val entry) = Some []
      ∧ errorMessage (val entry) = None ∧ loginCallback (val entry) = None
      ∧ loading (val entry) = Some false ∧ firstTimeLoad (val entry) = Some false.
Proof.
  intros Ham handled. subst handled.
  unfold fetchResponseSubscriber, exec, mbind, M_bind, emptyResponse.
  cbn [responseCode response_runs response_actions response_links default from_option id].
  destruct (updateStateSetResults_published createAttemptMap name [] [] [] patchset m am Ham)
    as (e & runsArr & top & -> & He & Hruns).
  { intros run Hin. by apply elem_of_nil in Hin. }
  simpl. split; [done |]. exists e, runsArr.
  rewrite currentState_publish, entryOf_published, He.
  apply Forall2_nil_inv_l in Hruns. by split_and!.
Qed.

End ResponsesHandled.

(** With the aggregation of the attempts, an empty response wipes the
    runs of "ci". *)
Lemma emptyResponse_clears_witness :
  let handled :=
    fetchResponseSubscriber exampleAttemptMap "ci" LATEST emptyResponse in
  (handled modelWithRuns).1 = Normal None
  ∧ ∃ entry noRuns,
      entryOf LATEST "ci" (currentState (exec handled modelWithRuns)) = Some entry
      ∧ runs (val entry) = Some noRuns ∧ val noRuns = [].
Proof.
  intros handled.
  destruct (emptyResponse_clears exampleAttemptMap "ci" LATEST modelWithRuns ∅)
    as (H1 & entry & noRuns & H2 & H3 & H4 & _).
  - vm_compute. reflexivity.
  - split; [exact H1 |]. by exists entry, noRuns.
Defined.

(** ** The attempts that the hovercard shows *)

Lemma attemptsSorted_app (hidden shown : list AttemptDetail) :
  attemptsSorted (hidden ++ shown) →
  ∀ h s, h ∈ hidden → s ∈ shown → attemptKey h ≤ attemptKey s.
Proof.
  unfold attemptsSorted. induction hidden as [|a hidden IH]; simpl; intros Hs h s Hh Hin.
  - by apply elem_of_nil in Hh.
  - apply StronglySorted_inv in Hs as [Hs Ha]. apply elem_of_cons in Hh as [-> | Hh].
    + rewrite Forall_forall in Ha. apply Ha, elem_of_app. by right.
    + by apply IH.
Qed.

Lemma last_drop_lt {A} (l : list A) (k : nat) :
  (k < length l)%nat → last (drop k l) = last l.
Proof.
  intros Hk. rewrite <- (take_drop k l) at 2. rewrite last_app.
  destruct (last (drop k l)) eqn:Hlast; [done |].
  apply last_None in Hlast. apply (f_equal length) in Hlast.
  rewrite length_drop in Hlast. simpl in Hlast. lia.
Qed.

(** X19.  The hovercard shows at most eight attempts.  Up to seven
    attempts of a run are shown as they are; of more, the last seven are
    shown behind one entry for the ones left out.  The last entry shown
    is always the last attempt of the run, and when the attempts are in
    ascending order, as [updateStateSetResults] leaves them, no attempt
    left out has a higher number than one that is shown.  The section
    is hidden unless there are two attempts at least. *)
Theorem computeAttempts_shows_last (run : CheckRun) :
  let details := attemptDetails (val run) in
  let shown := computeAttempts (Some run) in
  (length shown ≤ 8)%nat
  ∧ ((length details ≤ 7)%nat → shown = details)
  ∧ ((7 < length details)%nat →
     ∃ hidden lastSeven,
       details = hidden ++ lastSeven
       ∧ length lastSeven = 7%nat
       ∧ shown = moreAttempts :: lastSeven
       ∧ (attemptsSorted details →
          ∀ h s, h ∈ hidden → s ∈ lastSeven → attemptKey h ≤ attemptKey s))
  ∧ last shown = last details
  ∧ (hideAttempts (Some run) = false → (2 ≤ length shown)%nat)
  ∧ computeAttempts None = [] ∧ hideAttempts None = true.
Proof.
  intros details shown. subst shown. unfold computeAttempts, hideAttempts.
  cbn [from_option]. fold details.
  assert (Hsplit : details = take (length details - 7) details
                             ++ drop (length details - 7) details)
    by (by rewrite take_drop).
  assert (Hlen : length (drop (length details - 7) details)
                 = (length details - (length details - 7))%nat)
    by apply length_drop.
  split_and!; try done.
  - case_bool_decide; rewrite length_app, Hlen; simpl; lia.
  - intros Hle. rewrite bool_decide_eq_false_2 by lia.
    by replace (length details - 7)%nat with 0%nat by lia.
  - intros Hgt. rewrite bool_decide_eq_true_2 by lia.
    exists (take (length details - 7) details), (drop (length details - 7) details).
    split_and!; [done | lia | done |].
    intros Hs. apply attemptsSorted_app. by rewrite <- Hsplit.
  - case_bool_decide as Hgt.
    + rewrite last_app, last_drop_lt by lia.
      destruct (last details) eqn:Hlast; [done |].
      apply last_None in Hlast. rewrite Hlast in Hgt. simpl in Hgt. lia.
    + by replace (length details - 7)%nat with 0%nat by lia.
  - intros Hhide. apply bool_decide_eq_false in Hhide.
    case_bool_decide; rewrite length_app, Hlen; simpl; lia.
Qed.

(** ** The first registration of a plugin *)





(** ** What [triggerAction] does to the model *)


(** ** The results of all runs *)

Lemma foldl_concat {A B} (f : A → list B) (l : list A) (acc : list B) :
  foldl (λ collected x, collected ++ f x) acc l = acc ++ mjoin (f <$> l).
Proof.
  revert acc. induction l as [|x l IH]; intros acc; simpl.
  - by rewrite app_nil_r.
  - by rewrite IH, app_assoc.
Qed.

(** X22.  For one enumeration of the providers, the view of all
    results is the results of the runs of the view of all runs, run by
    run in the same order, a run without [results] giving none; one
    view throws when the other does.  The view of the latest attempts
    keeps the order of the runs it selects. *)
Theorem allResultsSelected_of_allRuns (values : list ChecksProviderState) :
  match allRuns values with
  | Normal all =>
      allResultsSelected values = Normal (mjoin (resultsOf <$> all))
      ∧ allRunsLatestPatchsetLatestAttempt all `sublist_of` all
      ∧ ∀ run, run ∈ allRunsLatestPatchsetLatestAttempt all
               ↔ run ∈ all ∧ isLatestAttempt (val run) = true
  | Throw _ => ∃ e, allResultsSelected values = Throw e
  end.
Proof.
  unfold allRuns, reduceSpread, allResultsSelected.
  rewrite reduceSpread_foldl, allResultsSelected_foldl.
  assert (Hsame : ∀ l : list ChecksProviderState,
    forallb (λ providerState, bool_decide (is_Some (val <$> runs (val providerState)))) l
    = forallb (λ providerState, bool_decide (is_Some (runs (val providerState)))) l).
  { intros l. induction l as [|p l IH]; simpl; [done |].
    rewrite IH. by destruct (runs (val p)). }
  rewrite Hsame.
  destruct (forallb _ values) eqn:Hall; [| by eexists].
  split_and!.
  - f_equal. simpl. clear Hsame. induction values as [|p values IH]; simpl; [done |].
    simpl in Hall. apply andb_prop in Hall as [Hp Hall].
    apply bool_decide_eq_true in Hp as [providerRuns Hp]. rewrite Hp. simpl.
    rewrite foldl_concat, fmap_app, join_app. simpl. f_equal. by apply IH.
  - unfold allRunsLatestPatchsetLatestAttempt.
    induction ([] ++ _) as [|run all IH]; simpl; [done |].
    destruct (isLatestAttempt (val run)); [by apply sublist_skip | by apply sublist_cons].
  - intros run. unfold allRunsLatestPatchsetLatestAttempt.
    rewrite !list_elem_of_In, filter_In. done.
Qed.
